(** * Monoalphabetic ciphers: a shallow embedding of [pwn/crypto/monoalphabetic.py]

    The module is Python 2.  Texts and alphabets are [str] values, modelled as
    lists of characters; a substitution table is a [dict] from characters to
    characters, modelled as a finite map; Python integers are [Z].  Operations
    that can raise in Python ([seq[i]], [min], [list.index], [gen.next()],
    [%]) live in a small error monad, so that "the call returns" and "the call
    raises" are both statements about the embedded function. *)

From Stdlib Require Import ZArith Ascii String.
From stdpp Require Import base decidable option list list_monad gmap fin_maps strings.

Local Open Scope Z_scope.

(** ** Data model *)

Abbreviation text := (list ascii).
Abbreviation dict := (gmap ascii ascii).

(** [string.uppercase] (C locale). *)
Definition uppercase : text :=
  list_ascii_of_string "ABCDEFGHIJKLMNOPQRSTUVWXYZ".

(** ** Python outcomes *)

Inductive exn : Set :=
  | ValueError          (* min of an empty list, list.index / str.index miss *)
  | IndexError          (* seq[i] out of range *)
  | StopIteration       (* next() on an exhausted generator *)
  | ZeroDivisionError.  (* x % 0 *)

Inductive outcome (A : Type) : Type :=
  | Returns (a : A)
  | Raises (e : exn).
Arguments Returns {A} a.
Arguments Raises {A} e.

Global Instance outcome_ret : MRet outcome := λ A a, Returns a.
Global Instance outcome_bind : MBind outcome := λ A B f m,
  match m with
  | Returns a => f a
  | Raises e => Raises e
  end.

(** The call terminated by raising, whatever the exception. *)
Definition fails {A} (m : outcome A) : Prop := ∃ e, m = Raises e.

(** The value Python's [None]. *)
Inductive NoneType : Set := PyNone.

(** ** Python primitives used by the module *)

(** [len(seq)] *)
Definition len {A} (l : list A) : Z := Z.of_nat (length l).

(** [range(n)] *)
Definition range (n : Z) : list Z := seqZ 0 n.

(** [seq[i]]: negative indices count from the end, anything else out of
    [-len, len) raises [IndexError]. *)
Definition getitem {A} (l : list A) (i : Z) : outcome A :=
  let j := if i <? 0 then i + len l else i in
  if 0 <=? j
  then match l !! Z.to_nat j with
       | Some x => Returns x
       | None => Raises IndexError
       end
  else Raises IndexError.

(** [x % n] on integers: the result takes the sign of [n]; [n = 0] raises. *)
Definition py_mod (x n : Z) : outcome Z :=
  if n =? 0 then Raises ZeroDivisionError else Returns (x `mod` n).

(** [seq.index(x)]: position of the first element equal to [x]. *)
Fixpoint index_from {A} (eqb : A → A → bool) (x : A) (l : list A) (i : Z)
  : outcome Z :=
  match l with
  | [] => Raises ValueError
  | y :: l' => if eqb y x then Returns i else index_from eqb x l' (i + 1)
  end.
Definition py_index {A} (eqb : A → A → bool) (l : list A) (x : A) : outcome Z :=
  index_from eqb x l 0.

(** [min(seq)]: the first element is the running minimum and a later item
    replaces it only when [item < current]. *)
Definition py_min {A} (ltb : A → A → bool) (l : list A) : outcome A :=
  match l with
  | [] => Raises ValueError
  | x :: l' => Returns (foldl (λ cur item, if ltb item cur then item else cur) x l')
  end.

(** [{k: v for (k, v) in pairs}]: entries are stored left to right, a later
    entry for the same key overwrites the earlier one. *)
Definition dict_of_pairs (kvs : list (ascii * ascii)) : dict :=
  foldl (λ d kv, <[kv.1 := kv.2]> d) ∅ kvs.

(** [fractions.gcd(i, n)] on the non-negative arguments the module passes. *)
Definition gcd (i n : Z) : Z := Z.gcd i n.

(** Iteration order of a [dict].  Python 2 leaves the order of
    [dictionary.items()] to the implementation; all that is known is that
    every entry is listed once. *)
Class DictOrder := {
  items : dict → list (ascii * ascii);
  items_perm : ∀ d : dict, items d ≡ₚ map_to_list d
}.

(** The collaborators [freq.text] and [util.squared_differences] are imported
    from modules outside this file; they are parameters here, together with
    the comparison [<] and the equality [==] of the scores they produce. *)
Class Scoring := {
  freqdist : Type;
  score : Type;
  freq_text : text → text → freqdist;
  squared_differences : freqdist → freqdist → score;
  score_ltb : score → score → bool;
  score_eqb : score → score → bool
}.

(** Scores are totally pre-ordered by [<], and [==] holds exactly between
    scores neither of which is smaller (floats without NaN, integers,
    rationals). *)
Class ScoringLaws `{Scoring} : Prop := {
  score_ltb_irrefl : ∀ x, score_ltb x x = false;
  score_ltb_trans : ∀ x y z,
    score_ltb x y = true → score_ltb y z = true → score_ltb x z = true;
  score_ltb_negtrans : ∀ x y z,
    score_ltb x y = false → score_ltb y z = false → score_ltb x z = false;
  score_eqb_ltb : ∀ x y,
    score_eqb x y = negb (score_ltb x y) && negb (score_ltb y x)
}.

(** ** The module *)

Section monoalphabetic.
Context `{DictOrder} `{Scoring}.

(** [encrypt_substitution(plaintext, dictionary)] *)
Definition encrypt_substitution (plaintext : text) (dictionary : dict) : text :=
  map (λ c, match dictionary !! c with Some v => v | None => c end) plaintext.

(** [decrypt_substitution(ciphertext, dictionary)] *)
Definition decrypt_substitution (ciphertext : text) (dictionary : dict) : text :=
  let inverse := dict_of_pairs (map (λ kv, (kv.2, kv.1)) (items dictionary)) in
  encrypt_substitution ciphertext inverse.

(** [crack_substitution(ciphertext, frequencies)]: the body is [pass]. *)
Definition crack_substitution (ciphertext : text) (frequencies : freqdist)
  : outcome NoneType :=
  Returns PyNone.

(** The score of one candidate, as computed in the loop of [generic_crack]. *)
Definition distance (ciphertext : text) (frequencies : freqdist)
    (alphabet : text) (candidate : dict) : score :=
  let trial := encrypt_substitution ciphertext candidate in
  let candidate_freq := freq_text trial alphabet in
  squared_differences candidate_freq frequencies.

(** [generic_crack(ciphertext, candidates, frequencies, alphabet)] *)
Definition generic_crack (ciphertext : text) (candidates : list dict)
    (frequencies : freqdist) (alphabet : text) : outcome (dict * text) :=
  let distances := map (distance ciphertext frequencies alphabet) candidates in
  m ← py_min score_ltb distances;
  guess ← py_index score_eqb distances m;
  winner ← getitem candidates guess;
  mret (winner, encrypt_substitution ciphertext winner).

(** [affine_dict(key, alphabet)] *)
Definition affine_dict (key : Z * Z) (alphabet : text) : outcome dict :=
  let '(a, b) := key in
  let n := len alphabet in
  kvs ← mapM (λ i, k ← getitem alphabet i;
                   j ← py_mod (a * i + b) n;
                   v ← getitem alphabet j;
                   mret (k, v)) (range n);
  mret (dict_of_pairs kvs).

(** [shift_dict(shift, alphabet)] *)
Definition shift_dict (shift : Z) (alphabet : text) : outcome dict :=
  affine_dict (1, shift) alphabet.

(** [atbash_dict(alphabet)] *)
Definition atbash_dict (alphabet : text) : outcome dict :=
  let n := len alphabet in
  affine_dict (n - 1, n - 1) alphabet.

(** [(key for key, value in its if value == alphabet[0]).next()]: the test
    is evaluated item by item, so [alphabet[0]] is only read when there is
    an item to test. *)
Fixpoint first_key_to_head (its : list (ascii * ascii)) (alphabet : text)
  : outcome ascii :=
  match its with
  | [] => Raises StopIteration
  | (key, value) :: its' =>
      a0 ← getitem alphabet 0;
      if Ascii.eqb value a0 then mret key else first_key_to_head its' alphabet
  end.

(** The candidate list built by [crack_shift]. *)
Definition crack_shift_candidates (alphabet : text) : outcome (list dict) :=
  mapM (λ i, shift_dict i alphabet) (range (len alphabet)).

(** [crack_shift(ciphertext, alphabet, frequencies)] *)
Definition crack_shift (ciphertext : text) (alphabet : text)
    (frequencies : freqdist) : outcome (Z * text) :=
  candidates ← crack_shift_candidates alphabet;
  r ← generic_crack ciphertext candidates frequencies alphabet;
  let '(dictionary, plaintext) := r in
  shift ← first_key_to_head (items dictionary) alphabet;
  k ← py_index Ascii.eqb alphabet shift;
  mret (k, plaintext).

(** The candidate list built by [crack_affine]: [affine_dict(k)] is called
    without an alphabet, so every table is over the default
    [string.uppercase]. *)
Definition crack_affine_candidates (alphabet : text) : outcome (list dict) :=
  let n := len alphabet in
  let invertible := filter (λ i, gcd i n = 1) (range n) in
  let keys := flat_map (λ a, map (λ b, (a, b)) (range n)) invertible in
  mapM (λ k, affine_dict k uppercase) keys.

(** [crack_affine(ciphertext, alphabet, frequencies)]: the result of
    [generic_crack] is returned as it is, and [generic_crack] is called
    without an alphabet, hence with the default [string.uppercase]. *)
Definition crack_affine (ciphertext : text) (alphabet : text)
    (frequencies : freqdist) : outcome (dict * text) :=
  candidates ← crack_affine_candidates alphabet;
  generic_crack ciphertext candidates frequencies uppercase.

(** [encrypt_shift(plaintext, key, alphabet)] *)
Definition encrypt_shift (plaintext : text) (key : Z) (alphabet : text)
  : outcome text :=
  d ← shift_dict key alphabet;
  mret (encrypt_substitution plaintext d).

(** [decrypt_affine(ciphertext, key, alphabet)] *)
Definition decrypt_affine (ciphertext : text) (key : Z * Z) (alphabet : text)
  : outcome text :=
  d ← affine_dict key alphabet;
  mret (decrypt_substitution ciphertext d).

End monoalphabetic.

(** ** A concrete iteration order and a concrete scorer

    Used to run the module on examples: the dictionary is listed in the order
    of the finite map, a frequency table holds the number of occurrences of
    each alphabet symbol, and the score is the integer sum of squared
    differences. *)

Definition map_order : DictOrder :=
  {| items := map_to_list; items_perm := λ d, reflexivity _ |}.

Definition count_occ_in (t : text) (c : ascii) : Z :=
  len (filter (λ x, x = c) t).

Fixpoint sum_sq (f g : list Z) : Z :=
  match f, g with
  | x :: f', y :: g' => (x - y) * (x - y) + sum_sq f' g'
  | _, _ => 0
  end.

Definition count_scoring : Scoring :=
  {| freqdist := list Z;
     score := Z;
     freq_text := λ t alphabet, map (count_occ_in t) alphabet;
     squared_differences := sum_sq;
     score_ltb := Z.ltb;
     score_eqb := Z.eqb |}.

Definition txt (s : string) : text := list_ascii_of_string s.

(** ** Specification vocabulary *)

(** The symbol at position [j] of an alphabet, for positions in range. *)
Definition sym_at (alphabet : text) (j : Z) : ascii :=
  default "000"%char (alphabet !! Z.to_nat j).

(** The entries [affine_dict] stores, in the order of its loop. *)
Definition affine_pairs (a b : Z) (alphabet : text) : list (ascii * ascii) :=
  map (λ i, (sym_at alphabet i, sym_at alphabet ((a * i + b) `mod` len alphabet)))
      (range (len alphabet)).

(** The Affine key-space over an alphabet, in the words of the design: one
    table per pair [(a, b)] with [a] invertible modulo [n] and [b] in
    [[0, n)], each table built over that alphabet. *)
Definition affine_keyspace (alphabet : text) : outcome (list dict) :=
  let n := len alphabet in
  let invertible := filter (λ a, Z.gcd a n = 1) (range n) in
  let keys := flat_map (λ a, map (λ b, (a, b)) (range n)) invertible in
  mapM (λ k, affine_dict k alphabet) keys.

(** [m] is injective on those symbols of [t] that are keys of [m]. *)
Definition injective_on_text (t : text) (m : dict) : Prop :=
  ∀ c1 c2 v, c1 ∈ t → c2 ∈ t → m !! c1 = Some v → m !! c2 = Some v → c1 = c2.

(** No symbol of [t] that is not a key of [m] is a value of [m]. *)
Definition no_passthrough_collision (t : text) (m : dict) : Prop :=
  ∀ c k, c ∈ t → m !! c = None → m !! k ≠ Some c.

(** No key of [m], occurring in [t] or not, has the value of a symbol of [t]
    other than that symbol itself. *)
Definition unambiguous_on_text (t : text) (m : dict) : Prop :=
  ∀ c k v, c ∈ t → m !! c = Some v → m !! k = Some v → k = c.

(** [m] is a one-to-one table from the symbols of [alphabet] to symbols of
    [alphabet]. *)
Definition bijective_over (alphabet : text) (m : dict) : Prop :=
  (∀ c, is_Some (m !! c) ↔ c ∈ alphabet)
  ∧ (∀ k v, m !! k = Some v → v ∈ alphabet)
  ∧ (∀ k1 k2 v, m !! k1 = Some v → m !! k2 = Some v → k1 = k2).

(** What [encrypt_substitution] does to one symbol. *)
Definition substitute (m : dict) (c : ascii) : ascii :=
  match m !! c with Some v => v | None => c end.

(** * Properties *)

(** ** The error monad and the Python primitives *)

Lemma bind_Returns {A B} (f : A → outcome B) (a : A) : Returns a ≫= f = f a.
Proof. reflexivity. Qed.

Lemma bind_Raises {A B} (f : A → outcome B) (e : exn) : Raises e ≫= f = Raises e.
Proof. reflexivity. Qed.

Lemma bind_Returns_inv {A B} (f : A → outcome B) (m : outcome A) (b : B) :
  m ≫= f = Returns b → ∃ a, m = Returns a ∧ f a = Returns b.
Proof. destruct m as [a|e]; simpl; [eauto | discriminate]. Qed.

Lemma mapM_Returns {A B} (f : A → outcome B) (g : A → B) (l : list A) :
  Forall (λ x, f x = Returns (g x)) l → mapM f l = Returns (map g l).
Proof.
  induction 1 as [|x l Hx _ IH]; [reflexivity|].
  cbn [mapM]. rewrite Hx, bind_Returns.
  fold (mapM f l). rewrite IH. reflexivity.
Qed.

Lemma len_nonneg {A} (l : list A) : 0 ≤ len l.
Proof. unfold len. lia. Qed.

Lemma len_zero {A} (l : list A) : len l = 0 ↔ l = [].
Proof. unfold len. destruct l; simpl; split; intros; try done; lia. Qed.

Lemma getitem_lookup {A} (l : list A) (i : nat) (x : A) :
  l !! i = Some x → getitem l (Z.of_nat i) = Returns x.
Proof.
  intros Hx. unfold getitem.
  destruct (Z.ltb_spec (Z.of_nat i) 0); [lia|].
  destruct (Z.leb_spec 0 (Z.of_nat i)); [|lia].
  by rewrite Nat2Z.id, Hx.
Qed.

Lemma getitem_sym_at (alphabet : text) (j : Z) :
  0 ≤ j < len alphabet → getitem alphabet j = Returns (sym_at alphabet j).
Proof.
  intros Hj. unfold sym_at.
  destruct (lookup_lt_is_Some_2 alphabet (Z.to_nat j)) as [x Hx];
    [unfold len in Hj; lia|].
  rewrite Hx. simpl. rewrite <- (Z2Nat.id j) by lia. by apply getitem_lookup.
Qed.

Lemma sym_at_lookup (alphabet : text) (i : nat) (c : ascii) :
  alphabet !! i = Some c → sym_at alphabet (Z.of_nat i) = c.
Proof. intros Hc. unfold sym_at. by rewrite Nat2Z.id, Hc. Qed.

Lemma sym_at_elem_of (alphabet : text) (j : Z) :
  0 ≤ j < len alphabet → sym_at alphabet j ∈ alphabet.
Proof.
  intros Hj. unfold sym_at.
  destruct (lookup_lt_is_Some_2 alphabet (Z.to_nat j)) as [x Hx];
    [unfold len in Hj; lia|].
  rewrite Hx. simpl. by eapply list_elem_of_lookup_2.
Qed.

Lemma map_sym_at_range (alphabet : text) :
  map (sym_at alphabet) (range (len alphabet)) = alphabet.
Proof.
  apply list_eq. intros i. unfold range, len.
  rewrite list_lookup_fmap.
  destruct (alphabet !! i) as [c|] eqn:Hc.
  - rewrite lookup_seqZ_lt by (apply lookup_lt_Some in Hc; lia).
    simpl. f_equal. by apply sym_at_lookup.
  - rewrite lookup_seqZ_ge by (apply lookup_ge_None in Hc; lia). done.
Qed.

(** ** Dictionaries built by comprehension *)

Lemma dict_of_pairs_snoc (kvs : list (ascii * ascii)) (k v : ascii) :
  dict_of_pairs (kvs ++ [(k, v)]) = <[k := v]> (dict_of_pairs kvs).
Proof. unfold dict_of_pairs. by rewrite foldl_snoc. Qed.

Lemma dict_of_pairs_lookup_Some (kvs : list (ascii * ascii)) (k v : ascii) :
  dict_of_pairs kvs !! k = Some v → (k, v) ∈ kvs.
Proof.
  induction kvs as [|[k' v'] kvs IH] using rev_ind; [done|].
  rewrite dict_of_pairs_snoc, lookup_insert, elem_of_app, list_elem_of_singleton.
  case_decide as Hk.
  - intros [= ->]. subst. by right.
  - intros Hl. left. by apply IH.
Qed.

Lemma dict_of_pairs_lookup_None (kvs : list (ascii * ascii)) (k : ascii) :
  dict_of_pairs kvs !! k = None ↔ k ∉ kvs.*1.
Proof.
  induction kvs as [|[k' v'] kvs IH] using rev_ind.
  { split; [intros _; apply not_elem_of_nil | done]. }
  rewrite dict_of_pairs_snoc, fmap_app, lookup_insert, elem_of_app. simpl.
  rewrite list_elem_of_singleton.
  case_decide as Hk; [subst; split; [done | tauto]|].
  rewrite IH. split; [intros Hn [?|?]; [tauto | congruence] | tauto].
Qed.

Lemma dict_of_pairs_lookup_NoDup (kvs : list (ascii * ascii)) (k v : ascii) :
  NoDup kvs.*1 → (k, v) ∈ kvs → dict_of_pairs kvs !! k = Some v.
Proof.
  intros Hnd Hin.
  destruct (dict_of_pairs kvs !! k) as [v'|] eqn:Hl.
  - apply dict_of_pairs_lookup_Some, list_elem_of_lookup in Hl as [j Hj].
    apply list_elem_of_lookup in Hin as [i Hi].
    assert (i = j) as ->; [|congruence].
    apply (NoDup_lookup kvs.*1 i j k Hnd);
      rewrite list_lookup_fmap; [by rewrite Hi | by rewrite Hj].
  - apply dict_of_pairs_lookup_None in Hl. destruct Hl.
    apply list_elem_of_fmap. by exists (k, v).
Qed.

(** ** Affine tables *)

Lemma affine_dict_returns (a b : Z) (alphabet : text) :
  affine_dict (a, b) alphabet = Returns (dict_of_pairs (affine_pairs a b alphabet)).
Proof.
  unfold affine_dict, affine_pairs.
  erewrite mapM_Returns; [reflexivity|].
  apply Forall_seqZ. intros i Hi. cbv beta.
  rewrite getitem_sym_at, bind_Returns by lia.
  unfold py_mod. destruct (Z.eqb_spec (len alphabet) 0) as [Hz|Hz]; [lia|].
  rewrite bind_Returns, getitem_sym_at; [reflexivity|].
  apply Z.mod_pos_bound. lia.
Qed.

Lemma affine_pairs_fst (a b : Z) (alphabet : text) :
  (affine_pairs a b alphabet).*1 = alphabet.
Proof.
  unfold affine_pairs. rewrite <- list_fmap_compose.
  apply (map_sym_at_range alphabet).
Qed.

Lemma affine_lookup_None (a b : Z) (alphabet : text) (c : ascii) :
  dict_of_pairs (affine_pairs a b alphabet) !! c = None ↔ c ∉ alphabet.
Proof. by rewrite dict_of_pairs_lookup_None, affine_pairs_fst. Qed.

Lemma affine_lookup_is_Some (a b : Z) (alphabet : text) (c : ascii) :
  is_Some (dict_of_pairs (affine_pairs a b alphabet) !! c) ↔ c ∈ alphabet.
Proof.
  rewrite <- not_eq_None_Some, affine_lookup_None.
  destruct (decide (c ∈ alphabet)); tauto.
Qed.

Lemma affine_lookup (a b : Z) (alphabet : text) (i : Z) :
  NoDup alphabet → 0 ≤ i < len alphabet →
  dict_of_pairs (affine_pairs a b alphabet) !! sym_at alphabet i
  = Some (sym_at alphabet ((a * i + b) `mod` len alphabet)).
Proof.
  intros Hnd Hi. apply dict_of_pairs_lookup_NoDup.
  - by rewrite affine_pairs_fst.
  - unfold affine_pairs. apply list_elem_of_fmap. exists i. split; [done|].
    apply elem_of_seqZ. lia.
Qed.

Lemma elem_of_sym_at (alphabet : text) (c : ascii) :
  c ∈ alphabet → ∃ i, 0 ≤ i < len alphabet ∧ sym_at alphabet i = c.
Proof.
  intros [i Hi]%list_elem_of_lookup. exists (Z.of_nat i). split.
  - apply lookup_lt_Some in Hi. unfold len. lia.
  - by apply sym_at_lookup.
Qed.

Lemma sym_at_inj (alphabet : text) (i j : Z) :
  NoDup alphabet → 0 ≤ i < len alphabet → 0 ≤ j < len alphabet →
  sym_at alphabet i = sym_at alphabet j → i = j.
Proof.
  intros Hnd Hi Hj Heq. unfold len in *.
  destruct (lookup_lt_is_Some_2 alphabet (Z.to_nat i)) as [x Hx]; [lia|].
  destruct (lookup_lt_is_Some_2 alphabet (Z.to_nat j)) as [y Hy]; [lia|].
  unfold sym_at in Heq. rewrite Hx, Hy in Heq. simpl in Heq. subst y.
  pose proof (NoDup_lookup _ _ _ _ Hnd Hx Hy). lia.
Qed.

Lemma atbash_index (n i : Z) :
  0 ≤ i < n → ((n - 1) * i + (n - 1)) `mod` n = n - 1 - i.
Proof.
  intros Hi. symmetry. apply (Z.mod_unique _ _ i); [left|]; lia.
Qed.

(** ** The substitution engine *)

Lemma encrypt_substitution_lookup (t : text) (m : dict) (i : nat) :
  encrypt_substitution t m !! i
  = (λ c, match m !! c with Some v => v | None => c end) <$> t !! i.
Proof. unfold encrypt_substitution. apply list_lookup_fmap. Qed.

Lemma encrypt_substitution_twice_id (t : text) (m m' : dict) :
  (∀ c, c ∈ t →
        match m !! c with
        | Some v => m' !! v = Some c
        | None => m' !! c = None
        end) →
  encrypt_substitution (encrypt_substitution t m) m' = t.
Proof.
  intros Hc. unfold encrypt_substitution.
  rewrite <- list_fmap_compose. rewrite <- (list_fmap_id t) at 2.
  apply list_fmap_ext. intros i c Hi. simpl.
  specialize (Hc c (list_elem_of_lookup_2 _ _ _ Hi)).
  destruct (m !! c) as [v|]; by rewrite Hc.
Qed.

(** C8: [encrypt_substitution] works symbol by symbol: position [i] of the
    output holds [mapping[c]] when the symbol [c] at position [i] of the text
    is a key of the mapping and [c] itself otherwise; hence the output has the
    length of the input, the order of symbols is kept, and a symbol that is
    not a key stays where it is. *)
Theorem encrypt_substitution_pointwise (t : text) (m : dict) :
  length (encrypt_substitution t m) = length t
  ∧ (∀ i : nat, encrypt_substitution t m !! i
       = (λ c, match m !! c with Some v => v | None => c end) <$> t !! i)
  ∧ (∀ (i : nat) (c v : ascii), t !! i = Some c → m !! c = Some v →
       encrypt_substitution t m !! i = Some v)
  ∧ (∀ (i : nat) (c : ascii), t !! i = Some c → m !! c = None →
       encrypt_substitution t m !! i = Some c).
Proof.
  split; [apply length_map|].
  split; [apply encrypt_substitution_lookup|].
  split; intros i c; [intros v|]; intros Hi Hc;
    by rewrite encrypt_substitution_lookup, Hi; simpl; rewrite Hc.
Qed.

(** C4, as the code has it: building an affine table never fails, whatever
    the key.  No invertibility test is made: the call returns a table whose
    keys are exactly the symbols of the alphabet, and over an alphabet
    without repeated symbols the symbol at index [i] is sent to the symbol at
    index [(a * i + b) mod n]. *)
Theorem affine_dict_never_fails (a b : Z) (alphabet : text) :
  ∃ d : dict,
    affine_dict (a, b) alphabet = Returns d
    ∧ (∀ c, is_Some (d !! c) ↔ c ∈ alphabet)
    ∧ (NoDup alphabet → ∀ i, 0 ≤ i < len alphabet →
         d !! sym_at alphabet i
         = Some (sym_at alphabet ((a * i + b) `mod` len alphabet))).
Proof.
  exists (dict_of_pairs (affine_pairs a b alphabet)).
  split; [apply affine_dict_returns|].
  split; [apply affine_lookup_is_Some|].
  intros Hnd i Hi. by apply affine_lookup.
Qed.

(** C9: [atbash_dict] is the affine table with [a = b = n - 1]; over an
    alphabet without repeated symbols it reverses the alphabet, and applying
    it twice gives back every text. *)
Theorem atbash_self_inverse (alphabet : text) :
  NoDup alphabet →
  atbash_dict alphabet = affine_dict (len alphabet - 1, len alphabet - 1) alphabet
  ∧ ∃ d : dict,
      atbash_dict alphabet = Returns d
      ∧ (∀ i, 0 ≤ i < len alphabet →
           d !! sym_at alphabet i = Some (sym_at alphabet (len alphabet - 1 - i)))
      ∧ (∀ t : text,
           encrypt_substitution (encrypt_substitution t d) d = t).
Proof.
  intros Hnd. split; [reflexivity|].
  set (n := len alphabet).
  exists (dict_of_pairs (affine_pairs (n - 1) (n - 1) alphabet)).
  assert (Hrev : ∀ i, 0 ≤ i < n →
    dict_of_pairs (affine_pairs (n - 1) (n - 1) alphabet) !! sym_at alphabet i
    = Some (sym_at alphabet (n - 1 - i))).
  { intros i Hi. rewrite affine_lookup by done. fold n. by rewrite atbash_index. }
  split; [apply affine_dict_returns|]. split; [exact Hrev|].
  intros t. apply encrypt_substitution_twice_id. intros c _.
  destruct (decide (c ∈ alphabet)) as [Hc|Hc].
  - apply elem_of_sym_at in Hc as (i & Hi & <-). fold n in Hi.
    rewrite (Hrev i Hi), Hrev by lia. do 2 f_equal. lia.
  - apply (affine_lookup_None (n - 1) (n - 1)) in Hc. by rewrite Hc.
Qed.

(** ** Decryption *)

Section inverse.
Context `{DictOrder}.

Lemma elem_of_items (m : dict) (k v : ascii) :
  (k, v) ∈ items m ↔ m !! k = Some v.
Proof. by rewrite (items_perm m), elem_of_map_to_list. Qed.

Lemma inverse_lookup_Some (m : dict) (v k : ascii) :
  dict_of_pairs (map (λ kv, (kv.2, kv.1)) (items m)) !! v = Some k →
  m !! k = Some v.
Proof.
  intros Hl%dict_of_pairs_lookup_Some.
  apply list_elem_of_fmap in Hl as ([k' v'] & [= -> ->] & Hin).
  by apply elem_of_items.
Qed.

Lemma inverse_lookup_None (m : dict) (v : ascii) :
  dict_of_pairs (map (λ kv, (kv.2, kv.1)) (items m)) !! v = None ↔
  ∀ k, m !! k ≠ Some v.
Proof.
  rewrite dict_of_pairs_lookup_None, <- list_fmap_compose. split.
  - intros Hn k Hk. apply Hn, list_elem_of_fmap.
    exists (k, v). split; [done|]. by apply elem_of_items.
  - intros Hn ([k v'] & Hv & Hin)%list_elem_of_fmap. simpl in Hv. subst v'.
    apply elem_of_items in Hin. by apply (Hn k).
Qed.

Lemma decrypt_encrypt_unambiguous (t : text) (m : dict) :
  unambiguous_on_text t m → no_passthrough_collision t m →
  decrypt_substitution (encrypt_substitution t m) m = t.
Proof.
  intros Hinj Hout. unfold decrypt_substitution.
  apply encrypt_substitution_twice_id. intros c Hc.
  destruct (m !! c) as [v|] eqn:Hm.
  - destruct (dict_of_pairs _ !! v) as [k|] eqn:Hi.
    + apply inverse_lookup_Some in Hi. f_equal. by eapply Hinj.
    + rewrite inverse_lookup_None in Hi. by destruct (Hi c).
  - apply inverse_lookup_None. intros k. by apply Hout.
Qed.

(** C6, as the code has it: the round trip through [encrypt_substitution]
    and [decrypt_substitution] gives back the text when no key of the
    mapping at all (in the text or not) shares its value with a symbol of
    the text, and no symbol of the text that is not a key is a value of the
    mapping; in particular for every one-to-one mapping over an alphabet
    and every text. *)
Theorem decrypt_encrypt_roundtrip :
  (∀ (t : text) (m : dict),
     unambiguous_on_text t m → no_passthrough_collision t m →
     decrypt_substitution (encrypt_substitution t m) m = t)
  ∧ (∀ (alphabet : text) (m : dict) (t : text),
       bijective_over alphabet m →
       decrypt_substitution (encrypt_substitution t m) m = t).
Proof.
  split; [apply decrypt_encrypt_unambiguous|].
  intros alphabet m t (Hdom & Hval & Hinj).
  apply decrypt_encrypt_unambiguous.
  - intros c k v _ Hc Hk. by eapply Hinj.
  - intros c k _ Hc Hk. apply Hval, Hdom in Hk as [v Hv]. congruence.
Qed.

End inverse.

(** C6, as stated, fails: in [{a: X, b: X}] the texts [a] and [b] each meet
    the stated condition (one symbol, a key of the mapping), both encrypt to
    [X], and whichever entry the inverted dictionary keeps, one of the two is
    not recovered. *)
Lemma decrypt_encrypt_colliding_key :
  let m : dict := {[ "a"%char := "X"%char; "b"%char := "X"%char ]} in
  (injective_on_text (txt "a") m ∧ no_passthrough_collision (txt "a") m)
  ∧ (injective_on_text (txt "b") m ∧ no_passthrough_collision (txt "b") m)
  ∧ ¬ ∃ O : DictOrder,
        @decrypt_substitution O (encrypt_substitution (txt "a") m) m = txt "a"
        ∧ @decrypt_substitution O (encrypt_substitution (txt "b") m) m = txt "b".
Proof.
  intros m.
  assert (Hone : ∀ x : ascii,
    m !! x = Some "X"%char →
    injective_on_text [x] m ∧ no_passthrough_collision [x] m).
  { intros x Hx. split.
    - intros c1 c2 v ->%list_elem_of_singleton ->%list_elem_of_singleton _ _. done.
    - intros c k ->%list_elem_of_singleton Hn. congruence. }
  split; [by apply Hone|]. split; [by apply Hone|].
  intros (O & Ha & Hb).
  assert (Ea : encrypt_substitution (txt "a") m = txt "X") by reflexivity.
  assert (Eb : encrypt_substitution (txt "b") m = txt "X") by reflexivity.
  rewrite Ea in Ha. rewrite Eb, Ha in Hb. discriminate Hb.
Qed.

(** ** The generic cracker *)

Section cracker.
Context `{ScoringLaws}.

Lemma score_ltb_asym (x y : score) : score_ltb x y = true → score_ltb y x = false.
Proof.
  intros Hxy. destruct (score_ltb y x) eqn:Hyx; [|done].
  by rewrite <- (score_ltb_irrefl x), (score_ltb_trans x y x).
Qed.

Lemma score_eqb_refl (x : score) : score_eqb x x = true.
Proof. by rewrite score_eqb_ltb, score_ltb_irrefl. Qed.

Lemma fold_min_spec (l : list score) (x : score) :
  let m := foldl (λ cur item, if score_ltb item cur then item else cur) x l in
  (m = x ∨ m ∈ l) ∧ score_ltb x m = false ∧ ∀ y, y ∈ l → score_ltb y m = false.
Proof.
  revert x. induction l as [|item l IH]; intros x; simpl.
  { split; [by left|]. split; [apply score_ltb_irrefl|]. by intros y ?%elem_of_nil. }
  destruct (score_ltb item x) eqn:Hlt.
  - destruct (IH item) as (Hin & Hitem & Hall). split; [|split].
    + right. destruct Hin as [->|?]; [left | by right].
    + eapply score_ltb_negtrans; [by apply score_ltb_asym | done].
    + intros y [->|?]%elem_of_cons; auto.
  - destruct (IH x) as (Hin & Hx & Hall). split; [|split].
    + destruct Hin as [->|?]; [by left | right; by right].
    + done.
    + intros y [->|?]%elem_of_cons; [|auto].
      by eapply score_ltb_negtrans.
Qed.

Lemma py_min_spec (l : list score) :
  l ≠ [] →
  ∃ m, py_min score_ltb l = Returns m
       ∧ m ∈ l ∧ ∀ y, y ∈ l → score_ltb y m = false.
Proof.
  destruct l as [|x l]; [done|]. intros _. eexists. split; [reflexivity|].
  destruct (fold_min_spec l x) as (Hin & Hx & Hall). split.
  - destruct Hin as [->|?]; [left | by right].
  - intros y [->|?]%elem_of_cons; auto.
Qed.

End cracker.

Lemma index_from_found {A} (eqb : A → A → bool) (x : A) (l : list A) (i : Z) :
  (∃ y, y ∈ l ∧ eqb y x = true) →
  ∃ g : nat,
    index_from eqb x l i = Returns (i + Z.of_nat g)
    ∧ (∃ y, l !! g = Some y ∧ eqb y x = true)
    ∧ ∀ (j : nat) y, (j < g)%nat → l !! j = Some y → eqb y x = false.
Proof.
  revert i. induction l as [|z l IH]; intros i (y & Hy & Heq).
  { by apply elem_of_nil in Hy. }
  simpl. destruct (eqb z x) eqn:Hz.
  - exists 0%nat. split; [f_equal; lia|]. split; [by exists z|]. intros; lia.
  - destruct (IH (i + 1)) as (g & Hg & Hat & Hbefore).
    { exists y. split; [|done]. apply elem_of_cons in Hy as [->|?]; [congruence | done]. }
    exists (S g). split; [rewrite Hg; f_equal; lia|]. split; [done|].
    intros [|j] y' Hj Hl; simpl in Hl; [congruence|].
    apply (Hbefore j); [lia | done].
Qed.

Lemma index_from_missing {A} (eqb : A → A → bool) (x : A) (l : list A) (i : Z) :
  (∀ y, y ∈ l → eqb y x = false) → index_from eqb x l i = Raises ValueError.
Proof.
  revert i. induction l as [|z l IH]; intros i Hall; [done|].
  simpl. rewrite Hall by left. apply IH. intros y ?. apply Hall. by right.
Qed.

Section generic_crack_correct.
Context `{ScoringLaws}.

(** The run of [generic_crack] on a non-empty list: [m] is the value of
    [min(distances)], [guess] the value of [distances.index(m)]. *)
Lemma generic_crack_guess (ciphertext : text) (candidates : list dict)
    (frequencies : freqdist) (alphabet : text) :
  candidates ≠ [] →
  ∃ (guess : nat) (winner : dict) (m : score),
    candidates !! guess = Some winner
    ∧ generic_crack ciphertext candidates frequencies alphabet
      = Returns (winner, encrypt_substitution ciphertext winner)
    ∧ score_eqb (distance ciphertext frequencies alphabet winner) m = true
    ∧ (∀ c, c ∈ candidates →
         score_ltb (distance ciphertext frequencies alphabet c) m = false)
    ∧ (∀ (j : nat) c, (j < guess)%nat → candidates !! j = Some c →
         score_eqb (distance ciphertext frequencies alphabet c) m = false).
Proof.
  intros Hne. unfold generic_crack.
  set (dist := distance ciphertext frequencies alphabet).
  destruct (py_min_spec (map dist candidates)) as (m & Hmin & Hm & Hlow).
  { by destruct candidates. }
  destruct (index_from_found score_eqb m (map dist candidates) 0)
    as (g & Hidx & (y & Hy & Hym) & Hfirst).
  { exists m. split; [done | apply score_eqb_refl]. }
  rewrite list_lookup_fmap in Hy.
  destruct (candidates !! g) as [w|] eqn:Hw; [|done].
  simpl in Hy. injection Hy as <-.
  exists g, w, m. split; [done|]. split; [|split; [done|split]].
  - rewrite Hmin, bind_Returns. unfold py_index. rewrite Hidx, bind_Returns.
    rewrite Z.add_0_l, (getitem_lookup _ _ _ Hw). reflexivity.
  - intros c Hc. apply Hlow, list_elem_of_fmap. by exists c.
  - intros j c Hj Hc. apply (Hfirst j); [done|].
    by rewrite list_lookup_fmap, Hc.
Qed.

(** C1: on a non-empty candidate list [generic_crack] returns
    [(winner, encrypt_substitution(ciphertext, winner))], where the score of
    a candidate [c] is
    [squared_differences(freq.text(encrypt_substitution(ciphertext, c), alphabet), frequencies)]:
    no candidate scores below the winner and every candidate listed before
    the winner scores strictly above it, so the winner is the first candidate
    of minimum distance. *)
Theorem generic_crack_stable_argmin (ciphertext : text) (candidates : list dict)
    (frequencies : freqdist) (alphabet : text) :
  candidates ≠ [] →
  ∃ (guess : nat) (winner : dict),
    candidates !! guess = Some winner
    ∧ generic_crack ciphertext candidates frequencies alphabet
      = Returns (winner, encrypt_substitution ciphertext winner)
    ∧ (∀ c, c ∈ candidates →
         score_ltb
           (squared_differences
              (freq_text (encrypt_substitution ciphertext c) alphabet)
              frequencies)
           (squared_differences
              (freq_text (encrypt_substitution ciphertext winner) alphabet)
              frequencies)
         = false)
    ∧ (∀ (j : nat) c, (j < guess)%nat → candidates !! j = Some c →
         score_ltb
           (squared_differences
              (freq_text (encrypt_substitution ciphertext winner) alphabet)
              frequencies)
           (squared_differences
              (freq_text (encrypt_substitution ciphertext c) alphabet)
              frequencies)
         = true).
Proof.
  intros Hne.
  destruct (generic_crack_guess ciphertext candidates frequencies alphabet Hne)
    as (g & w & m & Hw & Hcrack & Hwm & Hlow & Hfirst).
  unfold distance in Hwm, Hlow, Hfirst. cbv zeta in Hwm, Hlow, Hfirst.
  rewrite score_eqb_ltb in Hwm.
  apply andb_true_iff in Hwm as [_ Hmw%negb_true_iff].
  exists g, w. split; [done|]. split; [done|]. split.
  - intros c Hc. apply (score_ltb_negtrans _ m); [by apply Hlow | done].
  - intros j c Hj Hc.
    pose proof (Hlow c (list_elem_of_lookup_2 _ _ _ Hc)) as Hcm.
    pose proof (Hfirst j c Hj Hc) as Hne'.
    rewrite score_eqb_ltb, Hcm in Hne'. simpl in Hne'.
    apply negb_false_iff in Hne'.
    match goal with |- ?lhs = true => destruct lhs eqn:Hwc; [done|] end.
    by rewrite (score_ltb_negtrans _ _ _ Hmw Hwc) in Hne'.
Qed.

End generic_crack_correct.

(** ** Key spaces *)

Lemma shift_dict_returns (s : Z) (alphabet : text) :
  shift_dict s alphabet = Returns (dict_of_pairs (affine_pairs 1 s alphabet)).
Proof. apply affine_dict_returns. Qed.

Lemma crack_shift_candidates_returns (alphabet : text) :
  crack_shift_candidates alphabet
  = Returns (map (λ s, dict_of_pairs (affine_pairs 1 s alphabet))
                 (range (len alphabet))).
Proof.
  unfold crack_shift_candidates. apply mapM_Returns, Forall_forall.
  intros s _. apply shift_dict_returns.
Qed.

Lemma length_range_len {A} (l : list A) : length (range (len l)) = length l.
Proof. unfold range, len. rewrite length_seqZ. lia. Qed.

Section empty_candidates.
Context `{DictOrder} `{Scoring}.

(** C10: with no candidate there is no minimum to take and [generic_crack]
    raises; [crack_shift] builds one candidate per index of the alphabet,
    so its list is empty exactly for the empty alphabet, and there
    [crack_shift] raises as well. *)
Theorem generic_crack_empty_candidates :
  (∀ (ciphertext : text) (frequencies : freqdist) (alphabet : text),
     generic_crack ciphertext [] frequencies alphabet = Raises ValueError)
  ∧ (∀ alphabet : text,
       ∃ candidates, crack_shift_candidates alphabet = Returns candidates
                     ∧ length candidates = length alphabet
                     ∧ (candidates = [] ↔ alphabet = []))
  ∧ (∀ (ciphertext : text) (frequencies : freqdist),
       crack_shift ciphertext [] frequencies = Raises ValueError).
Proof.
  split; [reflexivity|]. split; [|reflexivity].
  intros alphabet. eexists. split; [apply crack_shift_candidates_returns|].
  assert (Hlen : length (map (λ s, dict_of_pairs (affine_pairs 1 s alphabet))
                             (range (len alphabet))) = length alphabet).
  { by rewrite length_map, length_range_len. }
  split; [done|]. rewrite <- !length_zero_iff_nil. by rewrite Hlen.
Qed.

End empty_candidates.

(** ** Recovering the shift *)

Lemma first_key_to_head_cases (its : list (ascii * ascii)) (a0 : ascii) (rest : text) :
  (∃ key, first_key_to_head its (a0 :: rest) = Returns key ∧ (key, a0) ∈ its)
  ∨ (first_key_to_head its (a0 :: rest) = Raises StopIteration
     ∧ ∀ k v, (k, v) ∈ its → v ≠ a0).
Proof.
  induction its as [|[k v] its IH]; cbn [first_key_to_head].
  { right. split; [done|]. by intros k v ?%elem_of_nil. }
  change (getitem (a0 :: rest) 0) with (Returns a0). rewrite bind_Returns.
  destruct (Ascii.eqb_spec v a0) as [->|Hv].
  - left. exists k. split; [done | left].
  - destruct IH as [(key & Hk & Hin)|[Hstop Hall]].
    + left. exists key. split; [done | by right].
    + right. split; [done|].
      intros k' v' [[= -> ->]|?]%elem_of_cons; [done | eauto].
Qed.

Lemma shift_index_zero (n i s : Z) :
  0 ≤ i < n → 0 ≤ s < n →
  (1 * i + s) `mod` n = 0 ↔ i = (n - s) `mod` n.
Proof.
  intros Hi Hs.
  destruct (decide (s = 0)) as [->|Hs0].
  - rewrite Z.sub_0_r, Z.mod_same, Z.add_0_r, Z.mul_1_l, Z.mod_small by lia. done.
  - rewrite (Z.mod_small (n - s)) by lia.
    destruct (decide (i + s < n)).
    + rewrite Z.mod_small by lia. lia.
    + rewrite <- (Z.mod_unique (1 * i + s) n 1 (i + s - n)) by (try left; lia). lia.
Qed.

Lemma shift_preimage_of_head (alphabet : text) (s : Z) (k : ascii) :
  NoDup alphabet → 0 ≤ s < len alphabet →
  dict_of_pairs (affine_pairs 1 s alphabet) !! k = Some (sym_at alphabet 0)
  ↔ k = sym_at alphabet ((len alphabet - s) `mod` len alphabet).
Proof.
  intros Hnd Hs.
  assert (Hr : 0 ≤ (len alphabet - s) `mod` len alphabet < len alphabet)
    by (apply Z.mod_pos_bound; lia).
  split.
  - intros Hk.
    assert (Hin : k ∈ alphabet) by (apply (affine_lookup_is_Some 1 s); eauto).
    apply elem_of_sym_at in Hin as (i & Hi & <-).
    rewrite affine_lookup in Hk by done. injection Hk as Hk.
    apply sym_at_inj in Hk; [|done|apply Z.mod_pos_bound; lia|lia].
    f_equal. by apply shift_index_zero.
  - intros ->. rewrite affine_lookup by done. do 2 f_equal.
    by apply shift_index_zero.
Qed.

Lemma py_index_sym_at (alphabet : text) (j : Z) :
  NoDup alphabet → 0 ≤ j < len alphabet →
  py_index Ascii.eqb alphabet (sym_at alphabet j) = Returns j.
Proof.
  intros Hnd Hj. unfold py_index.
  destruct (index_from_found Ascii.eqb (sym_at alphabet j) alphabet 0)
    as (g & Hg & (y & Hy & Heq) & _).
  { exists (sym_at alphabet j).
    split; [by apply sym_at_elem_of | apply Ascii.eqb_refl]. }
  rewrite Hg. f_equal. apply Ascii.eqb_eq in Heq. subst y.
  apply (sym_at_inj alphabet); [done| |done|].
  - apply lookup_lt_Some in Hy. unfold len. lia.
  - rewrite Z.add_0_l. by apply sym_at_lookup.
Qed.

Section crack_shift_correct.
Context `{DictOrder} `{ScoringLaws}.

Lemma first_key_to_head_stops (d : dict) (a0 : ascii) (rest : text) :
  first_key_to_head (items d) (a0 :: rest) = Raises StopIteration
  ↔ ∀ k, d !! k ≠ Some a0.
Proof.
  destruct (first_key_to_head_cases (items d) a0 rest)
    as [(key & -> & Hin)|[-> Hall]].
  - apply elem_of_items in Hin. split; [done|]. intros Hn. by destruct (Hn key).
  - split; [|done]. intros _ k Hk%elem_of_items. by apply Hall in Hk.
Qed.

(** C7: [crack_shift] takes as shift the alphabet index of the symbol that
    the winning table sends to [alphabet[0]].  The search for that symbol
    raises [StopIteration] exactly when no key of the table has the value
    [alphabet[0]]; over a non-empty alphabet without repeated symbols every
    candidate sends exactly one symbol to [alphabet[0]], so the search
    succeeds and [crack_shift] returns. *)
Theorem crack_shift_recovers_shift :
  (∀ (d : dict) (a0 : ascii) (rest : text),
     first_key_to_head (items d) (a0 :: rest) = Raises StopIteration
     ↔ ∀ k, d !! k ≠ Some a0)
  ∧ (∀ (ciphertext alphabet : text) (frequencies : freqdist),
       NoDup alphabet → alphabet ≠ [] →
       ∃ (candidates : list dict) (dictionary : dict) (plaintext : text)
         (key : ascii) (shift : Z),
         crack_shift_candidates alphabet = Returns candidates
         ∧ (∀ c, c ∈ candidates →
              ∃ key', ∀ k, c !! k = Some (sym_at alphabet 0) ↔ k = key')
         ∧ generic_crack ciphertext candidates frequencies alphabet
           = Returns (dictionary, plaintext)
         ∧ first_key_to_head (items dictionary) alphabet = Returns key
         ∧ dictionary !! key = Some (sym_at alphabet 0)
         ∧ 0 ≤ shift ∧ alphabet !! Z.to_nat shift = Some key
         ∧ crack_shift ciphertext alphabet frequencies
           = Returns (shift, plaintext)).
Proof.
  split; [apply first_key_to_head_stops|].
  intros ciphertext alphabet frequencies Hnd Hne.
  set (n := len alphabet).
  assert (Hn : 0 < n).
  { pose proof (len_nonneg alphabet). pose proof (len_zero alphabet).
    unfold n. destruct (decide (len alphabet = 0)); [tauto | lia]. }
  set (table := λ s, dict_of_pairs (affine_pairs 1 s alphabet)).
  set (candidates := map table (range n)).
  destruct (generic_crack_guess ciphertext candidates frequencies alphabet)
    as (g & w & _ & Hw & Hcrack & _).
  { unfold candidates, range. rewrite seqZ_cons by done. done. }
  unfold candidates in Hw. rewrite list_lookup_fmap in Hw.
  destruct (range n !! g) as [s|] eqn:Hs; [|done].
  simpl in Hw. injection Hw as <-.
  apply lookup_seqZ in Hs as [-> Hg]. rewrite Z.add_0_l in *.
  set (s := Z.of_nat g) in *.
  set (shift := (n - s) `mod` n).
  assert (Hshift : 0 ≤ shift < n) by (apply Z.mod_pos_bound; lia).
  assert (Hpre : ∀ k, table s !! k = Some (sym_at alphabet 0)
                      ↔ k = sym_at alphabet shift).
  { intros k. apply shift_preimage_of_head; [done | unfold s; lia]. }
  assert (Hfirst : first_key_to_head (items (table s)) alphabet
                   = Returns (sym_at alphabet shift)).
  { destruct alphabet as [|a0 rest]; [done|].
    change (sym_at (a0 :: rest) 0) with a0 in Hpre.
    destruct (first_key_to_head_cases (items (table s)) a0 rest)
      as [(key & -> & Hin)|[_ Hall]].
    - apply elem_of_items, Hpre in Hin. by subst key.
    - destruct (Hall (sym_at (a0 :: rest) shift) a0); [|done].
      by apply elem_of_items, Hpre. }
  exists candidates, (table s), (encrypt_substitution ciphertext (table s)),
    (sym_at alphabet shift), shift.
  split; [apply crack_shift_candidates_returns|].
  split.
  { intros c (s' & -> & Hs')%list_elem_of_fmap. apply elem_of_seqZ in Hs'.
    exists (sym_at alphabet ((n - s') `mod` n)). intros k.
    apply shift_preimage_of_head; [done | lia]. }
  split; [done|]. split; [done|]. split; [by apply Hpre|].
  split; [lia|]. split.
  { unfold sym_at.
    destruct (lookup_lt_is_Some_2 alphabet (Z.to_nat shift)) as [x Hx];
      [unfold n, len in Hshift; lia | by rewrite Hx]. }
  unfold crack_shift.
  rewrite crack_shift_candidates_returns, bind_Returns.
  fold n table candidates. rewrite Hcrack, bind_Returns.
  rewrite Hfirst, bind_Returns, py_index_sym_at by done. reflexivity.
Qed.

End crack_shift_correct.

(** ** The affine cracker *)

Lemma crack_affine_candidates_returns (alphabet : text) :
  let n := len alphabet in
  crack_affine_candidates alphabet
  = Returns (map (λ k, dict_of_pairs (affine_pairs k.1 k.2 uppercase))
                 (flat_map (λ a, map (λ b, (a, b)) (range n))
                           (filter (λ i, gcd i n = 1) (range n)))).
Proof.
  intros n. unfold crack_affine_candidates. apply mapM_Returns, Forall_forall.
  intros [a b] _. apply affine_dict_returns.
Qed.

Lemma affine_keys_nonempty (n : Z) :
  0 < n →
  flat_map (λ a, map (λ b, (a, b)) (range n)) (filter (λ i, gcd i n = 1) (range n))
  ≠ [].
Proof.
  intros Hn Hnil.
  set (a := if decide (n = 1) then 0 else 1).
  assert (Hin : (a, 0) ∈ flat_map (λ a, map (λ b, (a, b)) (range n))
                           (filter (λ i, gcd i n = 1) (range n))).
  { apply list_elem_of_In, in_flat_map. exists a. split; apply list_elem_of_In.
    - apply list_elem_of_filter. unfold a, gcd, range.
      case_decide; subst; (split; [|apply elem_of_seqZ; lia]).
      + reflexivity.
      + apply Z.gcd_1_l.
    - apply list_elem_of_fmap. exists 0. split; [done|].
      apply elem_of_seqZ. lia. }
  rewrite Hnil in Hin. by apply elem_of_nil in Hin.
Qed.

Section crack_affine_result.
Context `{ScoringLaws}.

(** C3, what the code does: over a non-empty alphabet [crack_affine] hands
    back the result of [generic_crack] untouched, that is the pair of the
    winning table and the text, not the text alone. *)
Theorem crack_affine_returns_pair (ciphertext alphabet : text)
    (frequencies : freqdist) :
  alphabet ≠ [] →
  ∃ (candidates : list dict) (winner : dict),
    crack_affine_candidates alphabet = Returns candidates
    ∧ winner ∈ candidates
    ∧ crack_affine ciphertext alphabet frequencies
      = Returns (winner, encrypt_substitution ciphertext winner).
Proof.
  intros Hne. unfold crack_affine.
  rewrite crack_affine_candidates_returns. cbv zeta.
  set (candidates := map _ _).
  destruct (generic_crack_guess ciphertext candidates frequencies uppercase)
    as (g & w & _ & Hw & Hcrack & _).
  { unfold candidates. intros Hnil%fmap_nil_inv. revert Hnil.
    apply affine_keys_nonempty.
    pose proof (len_nonneg alphabet). pose proof (len_zero alphabet).
    destruct (decide (len alphabet = 0)); [tauto | lia]. }
  exists candidates, w. split; [done|].
  split; [by eapply list_elem_of_lookup_2 | done].
Qed.

End crack_affine_result.

(** C2, what the code does: for the alphabet [ab] the two tables that
    [crack_affine] builds are tables over [string.uppercase] (they have no
    entry for [a] and one for [Z]), not the two tables of the Affine key-space
    over [ab]; and the search is run with [string.uppercase] as alphabet.
    Only for [string.uppercase] itself do the two lists agree. *)
Theorem crack_affine_ignores_alphabet :
  (∃ built space : list dict,
     crack_affine_candidates (txt "ab") = Returns built
     ∧ affine_keyspace (txt "ab") = Returns space
     ∧ length built = 2%nat ∧ length space = 2%nat
     ∧ Forall (λ c : dict, c !! "a"%char = None ∧ is_Some (c !! "Z"%char)) built
     ∧ Forall (λ c : dict, is_Some (c !! "a"%char) ∧ c !! "Z"%char = None) space
     ∧ built ≠ space)
  ∧ (∀ `{Scoring} (ciphertext : text) (frequencies : freqdist),
       crack_affine ciphertext (txt "ab") frequencies
       = (candidates ← crack_affine_candidates (txt "ab");
          generic_crack ciphertext candidates frequencies uppercase))
  ∧ crack_affine_candidates uppercase = affine_keyspace uppercase.
Proof.
  split; [|split; reflexivity].
  destruct (crack_affine_candidates (txt "ab")) as [built|] eqn:Hb;
    [|by vm_compute in Hb].
  destruct (affine_keyspace (txt "ab")) as [space|] eqn:Hs;
    [|by vm_compute in Hs].
  exists built, space. split; [done|]. split; [done|].
  vm_compute in Hb. injection Hb as <-.
  vm_compute in Hs. injection Hs as <-.
  split; [done|]. split; [done|].
  split.
  { repeat (constructor; [split; [by vm_compute | vm_compute; by eexists]|]).
    constructor. }
  split.
  { repeat (constructor; [split; [vm_compute; by eexists | by vm_compute]|]).
    constructor. }
  intros Heq. apply (f_equal (λ l : list dict, (λ c : dict, c !! "a"%char) <$> l !! 0%nat)) in Heq.
  vm_compute in Heq. discriminate Heq.
Qed.

(** ** The reserved cracker *)

(** C5, as the code has it: [crack_substitution] raises nothing; for every
    input the call returns, and the value returned is [None]. *)
Theorem crack_substitution_returns_none `{Scoring}
    (ciphertext : text) (frequencies : freqdist) :
  crack_substitution ciphertext frequencies = Returns PyNone.
Proof. reflexivity. Qed.

(** C5, as stated, fails: on the ciphertext [KHOOR] the call does not raise. *)
Lemma crack_substitution_does_not_fail :
  ¬ fails (@crack_substitution count_scoring (txt "KHOOR") [0; 1]).
Proof. intros [e He]. discriminate He. Qed.

(** C4, as stated, fails: [2] is not invertible modulo [len("AB") = 2], yet
    [affine_dict((2, 0), "AB")] returns the table [{A: A, B: A}]. *)
Lemma affine_dict_accepts_non_invertible :
  ¬ (fails (affine_dict (2, 0) (txt "AB")) ↔ gcd 2 (len (txt "AB")) ≠ 1).
Proof.
  intros [_ Hfail].
  destruct Hfail as [e He]; [by vm_compute|].
  vm_compute in He. discriminate He.
Qed.

(** ** Examples *)

Example affine_dict_non_invertible_table :
  affine_dict (2, 0) (txt "AB")
  = Returns {[ "A"%char := "A"%char; "B"%char := "A"%char ]}.
Proof. by vm_compute. Qed.

Example encrypt_shift_passthrough :
  encrypt_shift (txt "HELLO, WORLD!") 3 uppercase = Returns (txt "KHOOR, ZRUOG!").
Proof. by vm_compute. Qed.

(** Over an alphabet with a repeated symbol the table for shift 2 is
    [{A: B, B: B}]: no key is sent to [alphabet[0]], and when that table wins
    the search for the shift raises. *)
Example crack_shift_repeated_symbol :
  @crack_shift map_order count_scoring (txt "AB") (txt "ABB") [0; 2; 2]
  = Raises StopIteration.
Proof. by vm_compute. Qed.

Example crack_shift_khoor :
  @crack_shift map_order count_scoring (txt "KHOOR") uppercase
    [0;0;0;0;1;0;0;1;0;0;0;2;0;0;1;0;0;0;0;0;0;0;0;0;0;0]
  = Returns (3, txt "HELLO").
Proof. by vm_compute. Qed.

(** ** The properties at concrete inputs *)

Lemma count_scoring_laws : @ScoringLaws count_scoring.
Proof.
  split; simpl.
  - intros x. apply Z.ltb_irrefl.
  - intros x y z Hxy%Z.ltb_lt Hyz%Z.ltb_lt. apply Z.ltb_lt. lia.
  - intros x y z Hxy%Z.ltb_ge Hyz%Z.ltb_ge. apply Z.ltb_ge. lia.
  - intros x y. destruct (Z.eqb_spec x y), (Z.ltb_spec x y), (Z.ltb_spec y x);
      simpl; (done || lia).
Defined.

Lemma NoDup_ABC : NoDup (txt "ABC").
Proof. apply (bool_decide_unpack (NoDup (txt "ABC"))). by vm_compute. Defined.

Lemma generic_crack_stable_argmin_witness :
  let candidates : list dict :=
    [ {[ "B"%char := "A"%char ]}; ∅; {[ "A"%char := "B"%char ]}; ∅ ] in
  candidates ≠ []
  ∧ ∃ (guess : nat) (winner : dict),
      candidates !! guess = Some winner
      ∧ @generic_crack count_scoring (txt "AB") candidates [1; 1] (txt "AB")
        = Returns (winner, encrypt_substitution (txt "AB") winner)
      ∧ (∀ c, c ∈ candidates →
           Z.ltb
             (sum_sq (map (count_occ_in (encrypt_substitution (txt "AB") c))
                          (txt "AB")) [1; 1])
             (sum_sq (map (count_occ_in (encrypt_substitution (txt "AB") winner))
                          (txt "AB")) [1; 1])
           = false)
      ∧ (∀ (j : nat) c, (j < guess)%nat → candidates !! j = Some c →
           Z.ltb
             (sum_sq (map (count_occ_in (encrypt_substitution (txt "AB") winner))
                          (txt "AB")) [1; 1])
             (sum_sq (map (count_occ_in (encrypt_substitution (txt "AB") c))
                          (txt "AB")) [1; 1])
           = true).
Proof.
  intros candidates. split; [done|].
  apply (@generic_crack_stable_argmin count_scoring count_scoring_laws).
  done.
Defined.

Lemma encrypt_substitution_pointwise_witness :
  let t := txt "HI!" in
  let m : dict := {[ "H"%char := "K"%char ]} in
  (t !! 0%nat = Some "H"%char ∧ m !! "H"%char = Some "K"%char
   ∧ encrypt_substitution t m !! 0%nat = Some "K"%char)
  ∧ (t !! 2%nat = Some "!"%char ∧ m !! "!"%char = None
     ∧ encrypt_substitution t m !! 2%nat = Some "!"%char).
Proof.
  intros t m.
  destruct (encrypt_substitution_pointwise t m) as (_ & _ & Hkey & Hout).
  split.
  - split; [reflexivity|]. split; [reflexivity|].
    apply (Hkey 0%nat "H"%char "K"%char); reflexivity.
  - split; [reflexivity|]. split; [reflexivity|].
    apply (Hout 2%nat "!"%char); reflexivity.
Defined.

Lemma affine_dict_never_fails_witness :
  NoDup (txt "ABC")
  ∧ ∃ d : dict, affine_dict (3, 1) (txt "ABC") = Returns d
                ∧ d !! "C"%char = Some "B"%char.
Proof.
  split; [exact NoDup_ABC|].
  destruct (affine_dict_never_fails 3 1 (txt "ABC")) as (d & Hd & _ & Hat).
  exists d. split; [exact Hd|].
  apply (Hat NoDup_ABC 2). by vm_compute.
Defined.

Lemma atbash_self_inverse_witness :
  NoDup (txt "ABC")
  ∧ ∃ d : dict, atbash_dict (txt "ABC") = Returns d
                ∧ d !! "A"%char = Some "C"%char
                ∧ encrypt_substitution (encrypt_substitution (txt "CAB, ABC") d) d
                  = txt "CAB, ABC".
Proof.
  split; [exact NoDup_ABC|].
  destruct (atbash_self_inverse (txt "ABC") NoDup_ABC) as (_ & d & Hd & Hrev & Htwice).
  exists d. split; [exact Hd|]. split; [|apply Htwice].
  apply (Hrev 0). by vm_compute.
Defined.

Lemma decrypt_encrypt_roundtrip_witness :
  let m : dict := {[ "A"%char := "B"%char; "B"%char := "A"%char ]} in
  let t := txt "AB BA!" in
  unambiguous_on_text t m
  ∧ no_passthrough_collision t m
  ∧ bijective_over (txt "AB") m
  ∧ @decrypt_substitution map_order (encrypt_substitution t m) m = t.
Proof.
  intros m t.
  assert (Hm : ∀ k v, m !! k = Some v ↔
            (k = "A"%char ∧ v = "B"%char) ∨ (k = "B"%char ∧ v = "A"%char)).
  { intros k v. unfold m.
    rewrite lookup_insert_Some, lookup_singleton_Some.
    split; [intros [[<- <-]|[_ [<- <-]]]; [by left | by right]|].
    intros [[-> ->]|[-> ->]]; [by left | by right]. }
  assert (Hu : unambiguous_on_text t m).
  { intros c k v _ Hc%Hm Hk%Hm.
    destruct Hc as [[-> ->]|[-> ->]], Hk as [[-> ?]|[-> ?]]; done. }
  assert (Hp : no_passthrough_collision t m).
  { intros c k Hc Hn Hk%Hm.
    destruct Hk as [[-> ->]|[-> ->]]; by vm_compute in Hn. }
  split; [exact Hu|]. split; [exact Hp|]. split.
  - split; [|split].
    + intros c. unfold is_Some. setoid_rewrite Hm.
      change (txt "AB") with ["A"%char; "B"%char].
      rewrite !elem_of_cons, elem_of_nil. split.
      * intros [v [[-> _]|[-> _]]]; auto.
      * intros [->|[->|[]]]; eauto.
    + intros k v [[_ ->]|[_ ->]]%Hm; change (txt "AB") with ["A"%char; "B"%char];
        rewrite !elem_of_cons; auto.
    + intros k1 k2 v H1%Hm H2%Hm.
      destruct H1 as [[-> ->]|[-> ->]], H2 as [[-> ?]|[-> ?]]; done.
  - apply (proj1 (@decrypt_encrypt_roundtrip map_order) t m Hu Hp).
Defined.

Lemma crack_shift_recovers_shift_witness :
  NoDup (txt "ABC") ∧ txt "ABC" ≠ []
  ∧ ∃ (shift : Z) (plaintext : text),
      @crack_shift map_order count_scoring (txt "CAB") (txt "ABC") [3; 0; 0]
      = Returns (shift, plaintext).
Proof.
  split; [exact NoDup_ABC|]. split; [done|].
  destruct (proj2 (@crack_shift_recovers_shift map_order count_scoring
                     count_scoring_laws)
              (txt "CAB") (txt "ABC") [3; 0; 0] NoDup_ABC)
    as (cands & d & p & key & shift & _ & _ & _ & _ & _ & _ & _ & Hres);
    [done|].
  exists shift, p. exact Hres.
Defined.

Lemma crack_affine_returns_pair_witness :
  txt "A" ≠ []
  ∧ ∃ (candidates : list dict) (winner : dict),
      crack_affine_candidates (txt "A") = Returns candidates
      ∧ winner ∈ candidates
      ∧ @crack_affine count_scoring (txt "BCD") (txt "A") [1]
        = Returns (winner, encrypt_substitution (txt "BCD") winner).
Proof.
  split; [done|].
  apply (@crack_affine_returns_pair count_scoring count_scoring_laws). done.
Defined.

(** * Further properties of the module *)

(** ** Symbol-wise reasoning *)

Lemma encrypt_substitution_map (t : text) (m : dict) :
  encrypt_substitution t m = map (substitute m) t.
Proof. reflexivity. Qed.

Lemma encrypt_substitution_ext (t : text) (m m' : dict) :
  (∀ c, c ∈ t → substitute m c = substitute m' c) →
  encrypt_substitution t m = encrypt_substitution t m'.
Proof.
  intros Hc. rewrite !encrypt_substitution_map.
  apply list_fmap_ext. intros i c Hi. apply Hc. by eapply list_elem_of_lookup_2.
Qed.

Lemma encrypt_substitution_compose (t : text) (m1 m2 m3 : dict) :
  (∀ c, c ∈ t → substitute m2 (substitute m1 c) = substitute m3 c) →
  encrypt_substitution (encrypt_substitution t m1) m2 = encrypt_substitution t m3.
Proof.
  intros Hc. rewrite !encrypt_substitution_map, <- list_fmap_compose.
  apply list_fmap_ext. intros i c Hi. apply Hc. by eapply list_elem_of_lookup_2.
Qed.

Lemma encrypt_substitution_id (t : text) (m : dict) :
  (∀ c, c ∈ t → substitute m c = c) → encrypt_substitution t m = t.
Proof.
  intros Hc. rewrite encrypt_substitution_map. rewrite <- (list_fmap_id t) at 2.
  apply list_fmap_ext. intros i c Hi. apply Hc. by eapply list_elem_of_lookup_2.
Qed.

Lemma substitute_affine (a b : Z) (alphabet : text) (i : Z) :
  NoDup alphabet → 0 ≤ i < len alphabet →
  substitute (dict_of_pairs (affine_pairs a b alphabet)) (sym_at alphabet i)
  = sym_at alphabet ((a * i + b) `mod` len alphabet).
Proof. intros Hnd Hi. unfold substitute. by rewrite affine_lookup. Qed.

Lemma substitute_affine_outside (a b : Z) (alphabet : text) (c : ascii) :
  c ∉ alphabet → substitute (dict_of_pairs (affine_pairs a b alphabet)) c = c.
Proof.
  intros Hc. unfold substitute.
  by rewrite (proj2 (affine_lookup_None a b alphabet c) Hc).
Qed.

Lemma len_pos {A} (l : list A) : l ≠ [] → 0 < len l.
Proof. destruct l; [done|]. intros _. unfold len. simpl. lia. Qed.

(** ** Keys are read modulo the alphabet length *)

Lemma affine_index_mod (n a b i : Z) :
  n ≠ 0 → (a `mod` n * i + b `mod` n) `mod` n = (a * i + b) `mod` n.
Proof.
  intros Hn.
  rewrite <- Z.add_mod_idemp_l, Z.mul_mod_idemp_l, Z.add_mod_idemp_l by done.
  by rewrite Z.add_mod_idemp_r.
Qed.

Lemma affine_pairs_mod (a b : Z) (alphabet : text) :
  affine_pairs (a `mod` len alphabet) (b `mod` len alphabet) alphabet
  = affine_pairs a b alphabet.
Proof.
  unfold affine_pairs. apply list_fmap_ext. intros k i Hi.
  apply lookup_seqZ in Hi as [-> Hk]. do 2 f_equal.
  apply affine_index_mod. lia.
Qed.

(** X2: a key is only read modulo [n = len(alphabet)]: keys that agree
    modulo [n] in both components give the same table; in particular a shift
    by [shift + n] or by [shift - n] is the shift by [shift]. *)
Theorem affine_dict_key_mod (a b : Z) (alphabet : text) :
  affine_dict (a `mod` len alphabet, b `mod` len alphabet) alphabet
  = affine_dict (a, b) alphabet
  ∧ shift_dict (b + len alphabet) alphabet = shift_dict b alphabet
  ∧ shift_dict (b - len alphabet) alphabet = shift_dict b alphabet.
Proof.
  assert (Hshift : ∀ s s', s `mod` len alphabet = s' `mod` len alphabet →
            shift_dict s alphabet = shift_dict s' alphabet).
  { intros s s' Hs. rewrite !shift_dict_returns.
    rewrite <- (affine_pairs_mod 1 s), <- (affine_pairs_mod 1 s'). by rewrite Hs. }
  split; [|split].
  - by rewrite !affine_dict_returns, affine_pairs_mod.
  - apply Hshift. destruct (decide (len alphabet = 0)) as [Hz|Hz].
    + rewrite Hz. by rewrite Z.add_0_r.
    + rewrite <- Z.add_mod_idemp_r, Z.mod_same, Z.add_0_r by done. done.
  - apply Hshift. destruct (decide (len alphabet = 0)) as [Hz|Hz].
    + rewrite Hz. by rewrite Z.sub_0_r.
    + rewrite <- Zminus_mod_idemp_r, Z.mod_same, Z.sub_0_r by done. done.
Qed.

(** ** The identity shift *)

Lemma shift_zero_substitute (alphabet : text) (c : ascii) :
  substitute (dict_of_pairs (affine_pairs 1 0 alphabet)) c = c.
Proof.
  unfold substitute.
  destruct (dict_of_pairs _ !! c) as [v|] eqn:Hl; [|done].
  apply dict_of_pairs_lookup_Some in Hl.
  unfold affine_pairs in Hl.
  apply list_elem_of_fmap in Hl as (i & [= -> ->] & Hi).
  apply elem_of_seqZ in Hi. f_equal.
  rewrite Z.mul_1_l, Z.add_0_r. apply Z.mod_small. lia.
Qed.

(** X1: shifting by [0] changes no text, over any alphabet (repeated symbols
    included). *)
Theorem encrypt_shift_zero (plaintext alphabet : text) :
  encrypt_shift plaintext 0 alphabet = Returns plaintext.
Proof.
  unfold encrypt_shift. rewrite shift_dict_returns, bind_Returns.
  change (mret ?x) with (Returns x). f_equal.
  apply encrypt_substitution_id. intros c _. apply shift_zero_substitute.
Qed.

(** ** Invertible and non-invertible keys *)

Lemma affine_index_inj (n a b i j : Z) :
  Z.gcd a n = 1 → 0 ≤ i < n → 0 ≤ j < n →
  (a * i + b) `mod` n = (a * j + b) `mod` n → i = j.
Proof.
  intros Hg Hi Hj Heq.
  assert (Hdiv : (n | a * (i - j))).
  { apply Z.mod_divide; [lia|].
    replace (a * (i - j)) with ((a * i + b) - (a * j + b)) by lia.
    rewrite Zminus_mod, Heq, Z.sub_diag. apply Z.mod_0_l. lia. }
  apply Z.gauss in Hdiv; [|by rewrite Z.gcd_comm].
  destruct Hdiv as [q Hq].
  destruct (Z.lt_trichotomy q 0) as [Hq0|[Hq0|Hq0]]; [nia|subst q; lia|nia].
Qed.

Lemma affine_table_bijective (a b : Z) (alphabet : text) :
  NoDup alphabet → gcd a (len alphabet) = 1 →
  bijective_over alphabet (dict_of_pairs (affine_pairs a b alphabet)).
Proof.
  intros Hnd Hg. split; [apply affine_lookup_is_Some|]. split.
  - intros k v Hk.
    assert (Hin : k ∈ alphabet) by (apply (affine_lookup_is_Some a b); eauto).
    apply elem_of_sym_at in Hin as (i & Hi & <-).
    rewrite affine_lookup in Hk by done. injection Hk as <-.
    apply sym_at_elem_of, Z.mod_pos_bound. lia.
  - intros k1 k2 v H1 H2.
    assert (Hin1 : k1 ∈ alphabet) by (apply (affine_lookup_is_Some a b); eauto).
    assert (Hin2 : k2 ∈ alphabet) by (apply (affine_lookup_is_Some a b); eauto).
    apply elem_of_sym_at in Hin1 as (i & Hi & <-).
    apply elem_of_sym_at in Hin2 as (j & Hj & <-).
    rewrite affine_lookup in H1, H2 by done.
    rewrite <- H2 in H1. injection H1 as H1.
    apply sym_at_inj in H1; [|done|apply Z.mod_pos_bound; lia..].
    f_equal. by apply (affine_index_inj (len alphabet) a b).
Qed.

(** X3: over an alphabet without repeated symbols, a key whose [a] is
    coprime to the alphabet length gives a one-to-one table on the alphabet:
    its keys are the symbols of the alphabet, its values are symbols of the
    alphabet, and no two keys share a value. *)
Theorem affine_dict_bijective (a b : Z) (alphabet : text) :
  NoDup alphabet → gcd a (len alphabet) = 1 →
  ∃ d : dict, affine_dict (a, b) alphabet = Returns d ∧ bijective_over alphabet d.
Proof.
  intros Hnd Hg. eexists. split; [apply affine_dict_returns|].
  by apply affine_table_bijective.
Qed.

(** X4: the requirement on [a] is needed: over a non-empty alphabet without
    repeated symbols, a key whose [a] is not coprime to the alphabet length
    gives a table in which two different symbols have the same image. *)
Theorem affine_dict_collides (a b : Z) (alphabet : text) :
  NoDup alphabet → alphabet ≠ [] → gcd a (len alphabet) ≠ 1 →
  ∃ (d : dict) (k1 k2 v : ascii),
    affine_dict (a, b) alphabet = Returns d
    ∧ k1 ≠ k2 ∧ d !! k1 = Some v ∧ d !! k2 = Some v.
Proof.
  intros Hnd Hne Hg. unfold gcd in Hg.
  set (n := len alphabet) in *.
  assert (Hn : 0 < n) by by apply len_pos.
  set (g := Z.gcd a n) in *.
  assert (Hg0 : 0 ≤ g) by apply Z.gcd_nonneg.
  destruct (Z.gcd_divide_l a n) as [qa Hqa].
  destruct (Z.gcd_divide_r a n) as [q Hq]. fold g in Hqa, Hq.
  assert (Hg2 : 2 ≤ g) by (destruct (decide (g = 0)); [nia | lia]).
  assert (Hq1 : 1 ≤ q) by nia.
  assert (Hqn : q < n) by nia.
  exists (dict_of_pairs (affine_pairs a b alphabet)),
    (sym_at alphabet 0), (sym_at alphabet q), (sym_at alphabet (b `mod` n)).
  split; [apply affine_dict_returns|]. split; [|split].
  - intros Heq. apply sym_at_inj in Heq; [lia|done|fold n; lia..].
  - rewrite affine_lookup by (done || fold n; lia). fold n.
    by rewrite Z.mul_0_r, Z.add_0_l.
  - rewrite affine_lookup by (done || fold n; lia). fold n.
    do 2 f_equal.
    replace (a * q + b) with (b + qa * n) by nia.
    apply Z.mod_add. lia.
Qed.

Section affine_roundtrip.
Context `{DictOrder}.

Lemma decrypt_encrypt_bijective (alphabet : text) (m : dict) (t : text) :
  bijective_over alphabet m →
  decrypt_substitution (encrypt_substitution t m) m = t.
Proof.
  intros (Hdom & Hval & Hinj). apply decrypt_encrypt_unambiguous.
  - intros c k v _ Hc Hk. by eapply Hinj.
  - intros c k _ Hc Hk. apply Hval, Hdom in Hk as [v Hv]. congruence.
Qed.

(** X5: [decrypt_affine] undoes encryption with the table of the same key
    whenever [a] is coprime to the alphabet length and the alphabet has no
    repeated symbol, for every text (symbols outside the alphabet included)
    and every iteration order of the dictionary. *)
Theorem decrypt_affine_encrypt (a b : Z) (alphabet t : text) :
  NoDup alphabet → gcd a (len alphabet) = 1 →
  (d ← affine_dict (a, b) alphabet;
   decrypt_affine (encrypt_substitution t d) (a, b) alphabet)
  = Returns t.
Proof.
  intros Hnd Hg. unfold decrypt_affine.
  rewrite affine_dict_returns, !bind_Returns.
  change (mret ?x) with (Returns x). f_equal.
  apply (decrypt_encrypt_bijective alphabet). by apply affine_table_bijective.
Qed.

End affine_roundtrip.

(** ** Composition of affine tables *)

Lemma affine_compose_index (n a1 b1 a2 b2 i : Z) :
  n ≠ 0 →
  (a2 * ((a1 * i + b1) `mod` n) + b2) `mod` n
  = (a2 * a1 * i + (a2 * b1 + b2)) `mod` n.
Proof.
  intros Hn.
  rewrite <- Z.add_mod_idemp_l, Z.mul_mod_idemp_r, Z.add_mod_idemp_l by done.
  f_equal. lia.
Qed.

Lemma affine_compose_substitute (a1 b1 a2 b2 : Z) (alphabet : text) (c : ascii) :
  NoDup alphabet →
  substitute (dict_of_pairs (affine_pairs a2 b2 alphabet))
    (substitute (dict_of_pairs (affine_pairs a1 b1 alphabet)) c)
  = substitute (dict_of_pairs (affine_pairs (a2 * a1) (a2 * b1 + b2) alphabet)) c.
Proof.
  intros Hnd. destruct (decide (c ∈ alphabet)) as [Hc|Hc].
  - apply elem_of_sym_at in Hc as (i & Hi & <-).
    rewrite !substitute_affine by (done || apply Z.mod_pos_bound; lia).
    f_equal. apply affine_compose_index. lia.
  - rewrite (substitute_affine_outside a1 b1 alphabet c Hc).
    by rewrite !substitute_affine_outside.
Qed.

(** X6: over an alphabet without repeated symbols, encrypting with the table
    of key [(a1, b1)] and then with the table of key [(a2, b2)] is encrypting
    once with the table of key [(a2 * a1, a2 * b1 + b2)]. *)
Theorem affine_dict_compose (a1 b1 a2 b2 : Z) (alphabet t : text) :
  NoDup alphabet →
  (d1 ← affine_dict (a1, b1) alphabet;
   d2 ← affine_dict (a2, b2) alphabet;
   mret (encrypt_substitution (encrypt_substitution t d1) d2))
  = (d ← affine_dict (a2 * a1, a2 * b1 + b2) alphabet;
     mret (encrypt_substitution t d)).
Proof.
  intros Hnd. rewrite !affine_dict_returns, !bind_Returns. f_equal.
  apply encrypt_substitution_compose. intros c _.
  by apply affine_compose_substitute.
Qed.

Lemma shift_compose_substitute (s1 s2 : Z) (alphabet : text) (c : ascii) :
  NoDup alphabet →
  substitute (dict_of_pairs (affine_pairs 1 s2 alphabet))
    (substitute (dict_of_pairs (affine_pairs 1 s1 alphabet)) c)
  = substitute (dict_of_pairs (affine_pairs 1 (s1 + s2) alphabet)) c.
Proof.
  intros Hnd. rewrite affine_compose_substitute by done.
  by replace (1 * 1) with 1 by lia; replace (1 * s1 + s2) with (s1 + s2) by lia.
Qed.

(** X7: over an alphabet without repeated symbols, shifting by [s1] and then
    by [s2] is shifting by [s1 + s2]. *)
Theorem encrypt_shift_compose (s1 s2 : Z) (alphabet t : text) :
  NoDup alphabet →
  (c ← encrypt_shift t s1 alphabet; encrypt_shift c s2 alphabet)
  = encrypt_shift t (s1 + s2) alphabet.
Proof.
  intros Hnd. unfold encrypt_shift.
  rewrite !shift_dict_returns, ?bind_Returns.
  change (mret ?x) with (Returns x). rewrite ?bind_Returns. f_equal.
  apply encrypt_substitution_compose. intros c _.
  by apply shift_compose_substitute.
Qed.

(** ** Decryption as a substitution *)

Section decrypt.
Context `{DictOrder}.

Lemma inverse_lookup_injective (m : dict) (k v : ascii) :
  (∀ k1 k2 v', m !! k1 = Some v' → m !! k2 = Some v' → k1 = k2) →
  m !! k = Some v →
  dict_of_pairs (map (λ kv, (kv.2, kv.1)) (items m)) !! v = Some k.
Proof.
  intros Hinj Hk.
  destruct (dict_of_pairs _ !! v) as [k'|] eqn:Hi.
  - apply inverse_lookup_Some in Hi. f_equal. by eapply Hinj.
  - rewrite inverse_lookup_None in Hi. by destruct (Hi k).
Qed.

Lemma decrypt_substitution_as_encrypt (alphabet : text) (m m' : dict) (t : text) :
  bijective_over alphabet m →
  (∀ c, c ∈ alphabet →
        substitute m' c ∈ alphabet ∧ substitute m (substitute m' c) = c) →
  (∀ c, c ∉ alphabet → substitute m' c = c) →
  decrypt_substitution t m = encrypt_substitution t m'.
Proof.
  intros (Hdom & Hval & Hinj) Hin Hout. unfold decrypt_substitution.
  apply encrypt_substitution_ext. intros c _.
  destruct (decide (c ∈ alphabet)) as [Hc|Hc].
  - destruct (Hin c Hc) as [Hk Hback].
    apply Hdom in Hk as [v Hv]. unfold substitute in Hback at 1.
    rewrite Hv in Hback. subst v.
    unfold substitute at 1. by rewrite (inverse_lookup_injective m _ c Hinj Hv).
  - rewrite (Hout c Hc). unfold substitute.
    rewrite (proj2 (inverse_lookup_None m c)); [done|].
    intros k Hk. by apply Hval in Hk.
Qed.

(** X8: over an alphabet without repeated symbols, decrypting with the table
    of shift [s] is shifting by [-s]; the result does not depend on the
    iteration order of the dictionary. *)
Theorem decrypt_shift_is_negative_shift (s : Z) (alphabet t : text) :
  NoDup alphabet →
  (d ← shift_dict s alphabet; mret (decrypt_substitution t d))
  = encrypt_shift t (- s) alphabet.
Proof.
  intros Hnd. unfold encrypt_shift.
  rewrite !shift_dict_returns, !bind_Returns. f_equal.
  apply (decrypt_substitution_as_encrypt alphabet).
  - apply affine_table_bijective; [done | apply Z.gcd_1_l].
  - intros c Hc. split.
    + apply elem_of_sym_at in Hc as (i & Hi & <-).
      rewrite substitute_affine by done.
      apply sym_at_elem_of, Z.mod_pos_bound. lia.
    + rewrite shift_compose_substitute by done.
      replace (- s + s) with 0 by lia. apply shift_zero_substitute.
  - intros c Hc. by apply substitute_affine_outside.
Qed.

(** X9: what [decrypt_substitution] does with any mapping, injective or
    not: the output has the length of the input; a symbol that is a value of
    the mapping is replaced by one of the keys that map to it; a symbol that
    is not a value of the mapping stays as it is. *)
Theorem decrypt_substitution_pointwise (t : text) (m : dict) :
  length (decrypt_substitution t m) = length t
  ∧ ∀ (i : nat) (c : ascii), t !! i = Some c →
      (∃ k, decrypt_substitution t m !! i = Some k ∧ m !! k = Some c)
      ∨ (decrypt_substitution t m !! i = Some c ∧ ∀ k, m !! k ≠ Some c).
Proof.
  unfold decrypt_substitution. split; [apply length_map|].
  intros i c Hi. rewrite encrypt_substitution_lookup, Hi. simpl.
  destruct (dict_of_pairs _ !! c) as [k|] eqn:Hl.
  - left. exists k. split; [done|]. by apply inverse_lookup_Some.
  - right. split; [done|]. by apply inverse_lookup_None.
Qed.

(** X10: encrypting what [decrypt_substitution] produced gives back the
    text for every mapping, injective or not, as long as no symbol of the text
    is a key of the mapping without also being one of its values. *)
Theorem encrypt_decrypt_roundtrip (t : text) (m : dict) :
  (∀ c, c ∈ t → is_Some (m !! c) → ∃ k, m !! k = Some c) →
  encrypt_substitution (decrypt_substitution t m) m = t.
Proof.
  intros Hval. unfold decrypt_substitution.
  apply encrypt_substitution_twice_id. intros c Hc.
  destruct (dict_of_pairs _ !! c) as [k|] eqn:Hl.
  - by apply inverse_lookup_Some.
  - destruct (m !! c) as [v|] eqn:Hm; [|done].
    destruct (Hval c Hc) as [k Hk]; [by eexists|].
    rewrite inverse_lookup_None in Hl. by destruct (Hl k).
Qed.

End decrypt.

(** ** The cracker on degenerate input *)

Section first_candidate.
Context `{ScoringLaws}.

Lemma fold_min_keep (x : score) (l : list score) :
  (∀ y, y ∈ l → score_ltb y x = false) →
  foldl (λ cur item, if score_ltb item cur then item else cur) x l = x.
Proof.
  induction l as [|y l IH]; intros Hall; [done|].
  simpl. rewrite Hall by left. apply IH. intros z Hz. apply Hall. by right.
Qed.

Lemma generic_crack_first_wins (ciphertext : text) (c0 : dict) (rest : list dict)
    (frequencies : freqdist) (alphabet : text) :
  (∀ c, c ∈ rest →
        score_ltb (distance ciphertext frequencies alphabet c)
                  (distance ciphertext frequencies alphabet c0) = false) →
  generic_crack ciphertext (c0 :: rest) frequencies alphabet
  = Returns (c0, encrypt_substitution ciphertext c0).
Proof.
  intros Hall. unfold generic_crack. cbn [map py_min].
  rewrite fold_min_keep.
  - rewrite bind_Returns. unfold py_index. cbn [index_from].
    by rewrite score_eqb_refl.
  - intros y (c & -> & Hc)%list_elem_of_fmap. by apply Hall.
Qed.

(** X11: on the empty ciphertext every candidate gets the same score, and
    [generic_crack] returns the first candidate of the list together with
    the empty text. *)
Theorem generic_crack_empty_ciphertext (c0 : dict) (rest : list dict)
    (frequencies : freqdist) (alphabet : text) :
  generic_crack [] (c0 :: rest) frequencies alphabet = Returns (c0, []).
Proof.
  apply (generic_crack_first_wins [] c0 rest frequencies alphabet).
  intros c _. apply score_ltb_irrefl.
Qed.

End first_candidate.

(** ** The shift reported by [crack_shift] *)

Section crack_shift_result.
Context `{DictOrder} `{ScoringLaws}.

Lemma first_key_to_head_shift (alphabet : text) (s : Z) :
  NoDup alphabet → 0 ≤ s < len alphabet →
  first_key_to_head (items (dict_of_pairs (affine_pairs 1 s alphabet))) alphabet
  = Returns (sym_at alphabet ((len alphabet - s) `mod` len alphabet)).
Proof.
  intros Hnd Hs.
  pose proof (shift_preimage_of_head alphabet s) as Hpre.
  destruct alphabet as [|a0 rest]; [unfold len in Hs; simpl in Hs; lia|].
  change (sym_at (a0 :: rest) 0) with a0 in Hpre.
  destruct (first_key_to_head_cases
              (items (dict_of_pairs (affine_pairs 1 s (a0 :: rest)))) a0 rest)
    as [(key & -> & Hin)|[_ Hall]].
  - apply elem_of_items, Hpre in Hin; [by subst key | done..].
  - edestruct Hall; [|done]. apply elem_of_items, Hpre; done.
Qed.

Lemma crack_shift_of_winner (ciphertext alphabet : text) (frequencies : freqdist)
    (g : Z) (plaintext : text) :
  NoDup alphabet → 0 ≤ g < len alphabet →
  generic_crack ciphertext
    (map (λ s, dict_of_pairs (affine_pairs 1 s alphabet)) (range (len alphabet)))
    frequencies alphabet
  = Returns (dict_of_pairs (affine_pairs 1 g alphabet), plaintext) →
  crack_shift ciphertext alphabet frequencies
  = Returns ((len alphabet - g) `mod` len alphabet, plaintext).
Proof.
  intros Hnd Hg Hcrack. unfold crack_shift.
  rewrite crack_shift_candidates_returns, bind_Returns, Hcrack, bind_Returns.
  rewrite first_key_to_head_shift, bind_Returns by done.
  rewrite py_index_sym_at; [done | done | apply Z.mod_pos_bound; lia].
Qed.

Lemma crack_shift_winner (ciphertext alphabet : text) (frequencies : freqdist) :
  alphabet ≠ [] →
  ∃ g, 0 ≤ g < len alphabet
       ∧ generic_crack ciphertext
           (map (λ s, dict_of_pairs (affine_pairs 1 s alphabet))
                (range (len alphabet)))
           frequencies alphabet
         = Returns (dict_of_pairs (affine_pairs 1 g alphabet),
                    encrypt_substitution ciphertext
                      (dict_of_pairs (affine_pairs 1 g alphabet))).
Proof.
  intros Hne%len_pos.
  destruct (generic_crack_guess ciphertext
              (map (λ s, dict_of_pairs (affine_pairs 1 s alphabet))
                   (range (len alphabet)))
              frequencies alphabet)
    as (i & w & _ & Hw & Hcrack & _).
  { unfold range. by rewrite seqZ_cons. }
  rewrite list_lookup_fmap in Hw.
  destruct (range (len alphabet) !! i) as [g|] eqn:Hi; [|done].
  simpl in Hw. injection Hw as <-.
  apply lookup_seqZ in Hi as [-> Hi]. exists (0 + Z.of_nat i).
  split; [lia | done].
Qed.

(** X12: over a non-empty alphabet without repeated symbols, the pair
    [(shift, plaintext)] returned by [crack_shift] is consistent: the shift
    is an index of the alphabet, the plaintext has the length of the
    ciphertext, and shifting the plaintext by the reported shift gives back
    the ciphertext. *)
Theorem crack_shift_consistent (ciphertext alphabet : text)
    (frequencies : freqdist) :
  NoDup alphabet → alphabet ≠ [] →
  ∃ (shift : Z) (plaintext : text),
    crack_shift ciphertext alphabet frequencies = Returns (shift, plaintext)
    ∧ 0 ≤ shift < len alphabet
    ∧ length plaintext = length ciphertext
    ∧ encrypt_shift plaintext shift alphabet = Returns ciphertext.
Proof.
  intros Hnd Hne.
  destruct (crack_shift_winner ciphertext alphabet frequencies Hne)
    as (g & Hg & Hcrack).
  set (n := len alphabet) in *.
  exists ((n - g) `mod` n), (encrypt_substitution ciphertext
                               (dict_of_pairs (affine_pairs 1 g alphabet))).
  split; [by apply crack_shift_of_winner|].
  split; [apply Z.mod_pos_bound; lia|]. split; [apply length_map|].
  unfold encrypt_shift. rewrite shift_dict_returns, bind_Returns.
  change (mret ?x) with (Returns x). f_equal.
  rewrite <- (encrypt_substitution_id ciphertext
                (dict_of_pairs (affine_pairs 1 0 alphabet))) at 2
    by (intros c _; apply shift_zero_substitute).
  apply encrypt_substitution_compose. intros c _.
  rewrite shift_compose_substitute by done.
  rewrite <- (affine_pairs_mod 1 (g + _)), <- (affine_pairs_mod 1 0).
  fold n. do 3 f_equal.
  rewrite Z.add_mod_idemp_r by lia.
  replace (g + (n - g)) with n by lia. rewrite Z.mod_same by lia. done.
Qed.

(** X13: on the empty ciphertext, over a non-empty alphabet without repeated
    symbols, [crack_shift] reports shift [0] and the empty plaintext. *)
Theorem crack_shift_empty_ciphertext (alphabet : text) (frequencies : freqdist) :
  NoDup alphabet → alphabet ≠ [] →
  crack_shift [] alphabet frequencies = Returns (0, []).
Proof.
  intros Hnd Hne. pose proof (len_pos alphabet Hne) as Hn.
  rewrite (crack_shift_of_winner [] alphabet frequencies 0 []); [|done|lia|].
  - by rewrite Z.sub_0_r, Z.mod_same by lia.
  - unfold range. rewrite seqZ_cons by done. cbn [map].
    apply (generic_crack_first_wins [] _ _ frequencies alphabet).
    intros c _. apply score_ltb_irrefl.
Qed.

End crack_shift_result.

(** ** What [crack_affine] searches and returns *)

Lemma elem_of_affine_keys (n a b : Z) :
  (a, b) ∈ flat_map (λ a, map (λ b, (a, b)) (range n))
                    (filter (λ i, gcd i n = 1) (range n))
  → 0 ≤ a < n ∧ gcd a n = 1 ∧ 0 ≤ b < n.
Proof.
  intros Hin. apply list_elem_of_In, in_flat_map in Hin as (a' & Ha & Hb).
  apply list_elem_of_In, list_elem_of_filter in Ha as [Hg Ha].
  apply list_elem_of_In, list_elem_of_fmap in Hb as (b' & [= -> ->] & Hb).
  apply elem_of_seqZ in Ha, Hb. split; [lia|]. split; [done | lia].
Qed.

Lemma length_affine_keys (n : Z) (invertible : list Z) :
  len (flat_map (λ a, map (λ b, (a, b)) (range n)) invertible)
  = len invertible * Z.max 0 n.
Proof.
  unfold len. induction invertible as [|a l IH]; [done|].
  cbn [flat_map]. rewrite length_app, length_map. unfold range at 1.
  rewrite length_seqZ. cbn [length]. lia.
Qed.

(** X15: [crack_affine] builds one candidate per pair [(a, b)] with [a] in
    [range(n)] coprime to [n] and [b] in [range(n)]: their number is [n]
    times the number of residues coprime to [n], which is 312 for an
    alphabet of 26 symbols. *)
Theorem crack_affine_candidates_count (alphabet : text) :
  ∃ candidates : list dict,
    crack_affine_candidates alphabet = Returns candidates
    ∧ len candidates
      = len (filter (λ a, gcd a (len alphabet) = 1) (range (len alphabet)))
        * len alphabet
    ∧ (len alphabet = 26 → len candidates = 312).
Proof.
  eexists. split; [apply crack_affine_candidates_returns|].
  assert (Hcount : ∀ l : list (Z * Z),
    len (map (λ k, dict_of_pairs (affine_pairs k.1 k.2 uppercase)) l) = len l).
  { intros l. unfold len. by rewrite length_map. }
  rewrite Hcount, length_affine_keys.
  pose proof (len_nonneg alphabet).
  split; [by rewrite Z.max_r|].
  intros ->. by vm_compute.
Qed.

(** X14: the candidate list of [crack_affine] is empty exactly for the empty
    alphabet; there no candidate is scored and [crack_affine] raises the
    [ValueError] of [min] on an empty list. *)
Theorem crack_affine_empty_alphabet `{Scoring} :
  (∀ alphabet : text,
     ∃ candidates : list dict,
       crack_affine_candidates alphabet = Returns candidates
       ∧ (candidates = [] ↔ alphabet = []))
  ∧ (∀ (ciphertext : text) (frequencies : freqdist),
       crack_affine ciphertext [] frequencies = Raises ValueError).
Proof.
  split; [|reflexivity].
  intros alphabet. eexists. split; [apply crack_affine_candidates_returns|].
  cbv zeta. split.
  - intros Hnil%fmap_nil_inv.
    destruct alphabet as [|c l]; [done|].
    by apply affine_keys_nonempty in Hnil; [|apply len_pos].
  - by intros ->.
Qed.

Section crack_affine_search.
Context `{DictOrder} `{ScoringLaws}.

Lemma crack_affine_winner (ciphertext alphabet : text) (frequencies : freqdist) :
  alphabet ≠ [] →
  ∃ a b : Z,
    (0 ≤ a < len alphabet ∧ gcd a (len alphabet) = 1 ∧ 0 ≤ b < len alphabet)
    ∧ crack_affine ciphertext alphabet frequencies
      = Returns (dict_of_pairs (affine_pairs a b uppercase),
                 encrypt_substitution ciphertext
                   (dict_of_pairs (affine_pairs a b uppercase))).
Proof.
  intros Hne%len_pos. unfold crack_affine.
  rewrite crack_affine_candidates_returns. cbv zeta. rewrite bind_Returns.
  set (keys := flat_map _ _).
  destruct (generic_crack_guess ciphertext
              (map (λ k, dict_of_pairs (affine_pairs k.1 k.2 uppercase)) keys)
              frequencies uppercase)
    as (i & w & _ & Hw & Hcrack & _).
  { intros Hnil%fmap_nil_inv. revert Hnil. by apply affine_keys_nonempty. }
  rewrite list_lookup_fmap in Hw.
  destruct (keys !! i) as [[a b]|] eqn:Hi; [|done].
  simpl in Hw. injection Hw as <-.
  exists a, b. split; [|done].
  apply elem_of_affine_keys. by eapply list_elem_of_lookup_2.
Qed.

(** X16: for an alphabet of 26 symbols, the pair [(dictionary, text)]
    returned by [crack_affine] is consistent: the dictionary is the affine
    table over [string.uppercase] of a key [(a, b)] with [a] coprime to 26,
    and decrypting the returned text with the returned dictionary gives back
    the ciphertext. *)
Theorem crack_affine_consistent (ciphertext alphabet : text)
    (frequencies : freqdist) :
  len alphabet = 26 →
  ∃ (a b : Z) (d : dict) (p : text),
    (0 ≤ a < 26 ∧ gcd a 26 = 1 ∧ 0 ≤ b < 26)
    ∧ affine_dict (a, b) uppercase = Returns d
    ∧ crack_affine ciphertext alphabet frequencies = Returns (d, p)
    ∧ decrypt_substitution p d = ciphertext.
Proof.
  intros Hlen.
  destruct (crack_affine_winner ciphertext alphabet frequencies)
    as (a & b & Hkey & Hret).
  { intros ->. discriminate Hlen. }
  rewrite Hlen in Hkey.
  exists a, b, (dict_of_pairs (affine_pairs a b uppercase)),
    (encrypt_substitution ciphertext (dict_of_pairs (affine_pairs a b uppercase))).
  split; [done|]. split; [apply affine_dict_returns|]. split; [done|].
  apply (decrypt_encrypt_bijective uppercase).
  apply affine_table_bijective; [|by destruct Hkey as (_ & ? & _)].
  apply (bool_decide_unpack (NoDup uppercase)). by vm_compute.
Qed.

End crack_affine_search.

(** ** Atbash and colliding keys under decryption *)

Section decrypt_more.
Context `{DictOrder}.

Lemma atbash_key_coprime (n : Z) : Z.gcd (n - 1) n = 1.
Proof.
  rewrite <- (Z.gcd_sub_diag_r (n - 1) n).
  replace (n - (n - 1)) with 1 by lia. apply Z.gcd_1_r.
Qed.

(** X17: over an alphabet without repeated symbols the Atbash table is
    one-to-one on the alphabet, and decrypting with it is the same as
    encrypting with it, for every text and every iteration order of the
    dictionary. *)
Theorem atbash_decrypt_is_encrypt (alphabet t : text) :
  NoDup alphabet →
  ∃ d : dict,
    atbash_dict alphabet = Returns d
    ∧ bijective_over alphabet d
    ∧ decrypt_substitution t d = encrypt_substitution t d.
Proof.
  intros Hnd. unfold atbash_dict. cbv zeta. set (n := len alphabet).
  exists (dict_of_pairs (affine_pairs (n - 1) (n - 1) alphabet)).
  assert (Hbij : bijective_over alphabet
                   (dict_of_pairs (affine_pairs (n - 1) (n - 1) alphabet))).
  { apply affine_table_bijective; [done | apply atbash_key_coprime]. }
  split; [apply affine_dict_returns|]. split; [done|].
  apply (decrypt_substitution_as_encrypt alphabet); [done| |].
  - intros c (i & Hi & <-)%elem_of_sym_at. fold n in Hi.
    rewrite substitute_affine by done. fold n. rewrite atbash_index by done.
    split; [apply sym_at_elem_of; fold n; lia|].
    rewrite substitute_affine by (done || fold n; lia). fold n.
    rewrite atbash_index by lia. f_equal. lia.
  - intros c Hc. by apply substitute_affine_outside.
Qed.

(** X18: the hazard of a mapping that is not injective: when two different
    keys have the same value, the round trip through
    [encrypt_substitution] and [decrypt_substitution] loses at least one of
    them, whatever the iteration order of the dictionary. *)
Theorem decrypt_loses_colliding_key (m : dict) (k1 k2 v : ascii) :
  k1 ≠ k2 → m !! k1 = Some v → m !! k2 = Some v →
  decrypt_substitution (encrypt_substitution [k1] m) m ≠ [k1]
  ∨ decrypt_substitution (encrypt_substitution [k2] m) m ≠ [k2].
Proof.
  intros Hne H1 H2.
  assert (E1 : encrypt_substitution [k1] m = [v]).
  { unfold encrypt_substitution. simpl. by rewrite H1. }
  assert (E2 : encrypt_substitution [k2] m = [v]).
  { unfold encrypt_substitution. simpl. by rewrite H2. }
  rewrite E1, E2.
  destruct (decide (decrypt_substitution [v] m = [k1])) as [Hd|Hd]; [|by left].
  right. rewrite Hd. congruence.
Qed.

End decrypt_more.

(** ** The further properties at concrete inputs *)

Lemma affine_dict_bijective_witness :
  NoDup (txt "ABC") ∧ gcd 2 (len (txt "ABC")) = 1
  ∧ ∃ d : dict, affine_dict (2, 1) (txt "ABC") = Returns d
                ∧ bijective_over (txt "ABC") d.
Proof.
  split; [exact NoDup_ABC|]. split; [reflexivity|].
  apply affine_dict_bijective; [exact NoDup_ABC | reflexivity].
Defined.

Lemma affine_dict_collides_witness :
  NoDup (txt "ABC") ∧ txt "ABC" ≠ [] ∧ gcd 3 (len (txt "ABC")) ≠ 1
  ∧ ∃ (d : dict) (k1 k2 v : ascii),
      affine_dict (3, 1) (txt "ABC") = Returns d
      ∧ k1 ≠ k2 ∧ d !! k1 = Some v ∧ d !! k2 = Some v.
Proof.
  split; [exact NoDup_ABC|]. split; [done|]. split; [by vm_compute|].
  apply affine_dict_collides; [exact NoDup_ABC | done | by vm_compute].
Defined.

Lemma decrypt_affine_encrypt_witness :
  NoDup (txt "ABC") ∧ gcd 2 (len (txt "ABC")) = 1
  ∧ (d ← affine_dict (2, 1) (txt "ABC");
     @decrypt_affine map_order (encrypt_substitution (txt "CAB, ABC") d)
       (2, 1) (txt "ABC"))
    = Returns (txt "CAB, ABC").
Proof.
  split; [exact NoDup_ABC|]. split; [reflexivity|].
  apply (@decrypt_affine_encrypt map_order); [exact NoDup_ABC | reflexivity].
Defined.

Lemma affine_dict_compose_witness :
  NoDup (txt "ABC")
  ∧ (d1 ← affine_dict (2, 1) (txt "ABC");
     d2 ← affine_dict (1, 2) (txt "ABC");
     mret (encrypt_substitution (encrypt_substitution (txt "CAB!") d1) d2))
    = (d ← affine_dict (1 * 2, 1 * 1 + 2) (txt "ABC");
       mret (encrypt_substitution (txt "CAB!") d)).
Proof.
  split; [exact NoDup_ABC|]. apply affine_dict_compose. exact NoDup_ABC.
Defined.

Lemma encrypt_shift_compose_witness :
  NoDup (txt "ABC")
  ∧ (c ← encrypt_shift (txt "CAB!") 1 (txt "ABC"); encrypt_shift c 4 (txt "ABC"))
    = encrypt_shift (txt "CAB!") (1 + 4) (txt "ABC").
Proof.
  split; [exact NoDup_ABC|]. apply encrypt_shift_compose. exact NoDup_ABC.
Defined.

Lemma decrypt_shift_is_negative_shift_witness :
  NoDup (txt "ABC")
  ∧ (d ← shift_dict 1 (txt "ABC");
     mret (@decrypt_substitution map_order (txt "CAB!") d))
    = encrypt_shift (txt "CAB!") (- 1) (txt "ABC").
Proof.
  split; [exact NoDup_ABC|].
  apply (@decrypt_shift_is_negative_shift map_order). exact NoDup_ABC.
Defined.

Lemma decrypt_substitution_pointwise_witness :
  let t := txt "B!" in
  let m : dict := {[ "A"%char := "B"%char ]} in
  t !! 0%nat = Some "B"%char
  ∧ ((∃ k, @decrypt_substitution map_order t m !! 0%nat = Some k
           ∧ m !! k = Some "B"%char)
     ∨ (@decrypt_substitution map_order t m !! 0%nat = Some "B"%char
        ∧ ∀ k, m !! k ≠ Some "B"%char)).
Proof.
  intros t m. split; [reflexivity|].
  apply (proj2 (@decrypt_substitution_pointwise map_order t m) 0%nat). reflexivity.
Defined.

Lemma encrypt_decrypt_roundtrip_witness :
  let t := txt "B!" in
  let m : dict := {[ "A"%char := "B"%char; "B"%char := "B"%char ]} in
  (∀ c, c ∈ t → is_Some (m !! c) → ∃ k, m !! k = Some c)
  ∧ encrypt_substitution (@decrypt_substitution map_order t m) m = t.
Proof.
  intros t m.
  assert (Hval : ∀ c, c ∈ t → is_Some (m !! c) → ∃ k, m !! k = Some c).
  { intros c Hc Hs. unfold t in Hc. change (txt "B!") with ["B"%char; "!"%char] in Hc.
    rewrite !elem_of_cons, elem_of_nil in Hc. destruct Hc as [->|[->|[]]].
    - by exists "A"%char.
    - vm_compute in Hs. by destruct Hs. }
  split; [exact Hval|].
  apply (@encrypt_decrypt_roundtrip map_order). exact Hval.
Defined.

Lemma generic_crack_empty_ciphertext_witness :
  @ScoringLaws count_scoring
  ∧ @generic_crack count_scoring [] [ {[ "A"%char := "B"%char ]}; ∅ ] [1; 1]
      (txt "AB")
    = Returns ({[ "A"%char := "B"%char ]}, []).
Proof.
  split; [exact count_scoring_laws|].
  apply (@generic_crack_empty_ciphertext count_scoring count_scoring_laws).
Defined.

Lemma crack_shift_consistent_witness :
  NoDup (txt "ABC") ∧ txt "ABC" ≠ []
  ∧ ∃ (shift : Z) (plaintext : text),
      @crack_shift map_order count_scoring (txt "CAB") (txt "ABC") [3; 0; 0]
      = Returns (shift, plaintext)
      ∧ 0 ≤ shift < len (txt "ABC")
      ∧ length plaintext = length (txt "CAB")
      ∧ encrypt_shift plaintext shift (txt "ABC") = Returns (txt "CAB").
Proof.
  split; [exact NoDup_ABC|]. split; [done|].
  apply (@crack_shift_consistent map_order count_scoring count_scoring_laws);
    [exact NoDup_ABC | done].
Defined.

Lemma crack_shift_empty_ciphertext_witness :
  NoDup (txt "ABC") ∧ txt "ABC" ≠ []
  ∧ @crack_shift map_order count_scoring [] (txt "ABC") [1; 1; 1]
    = Returns (0, []).
Proof.
  split; [exact NoDup_ABC|]. split; [done|].
  apply (@crack_shift_empty_ciphertext map_order count_scoring count_scoring_laws);
    [exact NoDup_ABC | done].
Defined.

Lemma crack_affine_candidates_count_witness :
  len uppercase = 26
  ∧ ∃ candidates : list dict,
      crack_affine_candidates uppercase = Returns candidates
      ∧ len candidates = 312.
Proof.
  split; [reflexivity|].
  destruct (crack_affine_candidates_count uppercase) as (cands & Hc & _ & Hn).
  exists cands. split; [exact Hc|]. apply Hn. reflexivity.
Defined.

Lemma crack_affine_consistent_witness :
  let lowercase := txt "abcdefghijklmnopqrstuvwxyz" in
  len lowercase = 26
  ∧ ∃ (a b : Z) (d : dict) (p : text),
      (0 ≤ a < 26 ∧ gcd a 26 = 1 ∧ 0 ≤ b < 26)
      ∧ affine_dict (a, b) uppercase = Returns d
      ∧ @crack_affine count_scoring (txt "KHOOR") lowercase [1; 2] = Returns (d, p)
      ∧ @decrypt_substitution map_order p d = txt "KHOOR".
Proof.
  intros lowercase. split; [reflexivity|].
  apply (@crack_affine_consistent map_order count_scoring count_scoring_laws).
  reflexivity.
Defined.

Lemma atbash_decrypt_is_encrypt_witness :
  NoDup (txt "ABC")
  ∧ ∃ d : dict,
      atbash_dict (txt "ABC") = Returns d
      ∧ bijective_over (txt "ABC") d
      ∧ @decrypt_substitution map_order (txt "CAB!") d
        = encrypt_substitution (txt "CAB!") d.
Proof.
  split; [exact NoDup_ABC|].
  apply (@atbash_decrypt_is_encrypt map_order). exact NoDup_ABC.
Defined.

Lemma decrypt_loses_colliding_key_witness :
  let m : dict := {[ "a"%char := "X"%char; "b"%char := "X"%char ]} in
  "a"%char ≠ "b"%char ∧ m !! "a"%char = Some "X"%char
  ∧ m !! "b"%char = Some "X"%char
  ∧ (@decrypt_substitution map_order (encrypt_substitution ["a"%char] m) m
       ≠ ["a"%char]
     ∨ @decrypt_substitution map_order (encrypt_substitution ["b"%char] m) m
       ≠ ["b"%char]).
Proof.
  intros m. split; [done|]. split; [reflexivity|]. split; [reflexivity|].
  apply (@decrypt_loses_colliding_key map_order m _ _ "X"%char);
    [done | reflexivity | reflexivity].
Defined.
